(** * Graphical analysis of PET time-activity curves

    A shallow embedding of [pet_cli/graphical_analysis.py]: the cumulative
    trapezoidal integral, the threshold locator, the line fit, the three
    graphical methods (Patlak, Logan, alternative Logan) and the dispatcher
    that selects one of them by name.

    Numbers.  The program computes on [float64] arrays.  Here an array of
    finite values is a [list R] and the arithmetic is exact: rounding is
    outside the model.  The values that are not finite (NaN, the
    infinities) are modelled where the program meets them: in its
    comparisons (module [Ieee]) and in its divisions by zero (module
    [IeeeDiv]).  The definitions on [list R] are the program on inputs
    whose quotients are all finite, where [x / 0] does not arise.

    Errors.  NumPy raises on an empty reduction, an index out of range and
    operands that cannot be broadcast, and the compiled
    [np.linalg.lstsq] raises on empty arrays, on a row count that does not
    fit and on entries that are not finite; these are the [Raise] results
    of the [result] monad below. *)

From Stdlib Require Import String Reals Lra Lia ZArith List.
From Stdlib Require Import Sorting.Sorted.
Import ListNotations.

Open Scope R_scope.

(** ** Exceptions and the error monad *)

Inductive exn : Type :=
| ValueError (msg : string)
| IndexError
| LinAlgError.

Inductive result (A : Type) : Type :=
| Ok (a : A)
| Raise (e : exn).

Arguments Ok {A} a.
Arguments Raise {A} e.

Definition bind {A B : Type} (m : result A) (k : A -> result B) : result B :=
  match m with
  | Ok a => k a
  | Raise e => Raise e
  end.

Notation "x <- m ;; k" := (bind m (fun x => k))
  (at level 61, m at next level, right associativity).

Definition is_ok {A : Type} (m : result A) : bool :=
  match m with Ok _ => true | Raise _ => false end.

(** ** The NumPy operations the program uses, on one-dimensional arrays *)

Module Np.

(** [len(a)] *)
Definition len (a : list R) : nat := length a.

(** [np.zeros(n)] *)
Definition zeros (n : nat) : list R := repeat 0 n.

(** [a[1:]] *)
Definition from1 (a : list R) : list R := tl a.

(** [a[:-1]] *)
Definition upto_last (a : list R) : list R := removelast a.

(** Elementwise combination of two arrays of one length. *)
Fixpoint zip_with (op : R -> R -> R) (a b : list R) : list R :=
  match a, b with
  | x :: a', y :: b' => op x y :: zip_with op a' b'
  | _, _ => []
  end.

(** A binary ufunc on one-dimensional operands: equal lengths combine
    elementwise, an operand of length one is stretched, anything else
    cannot be broadcast. *)
Definition ufunc2 (op : R -> R -> R) (a b : list R) : result (list R) :=
  if Nat.eqb (length a) (length b) then Ok (zip_with op a b)
  else match a, b with
       | [x], _ => Ok (map (fun y => op x y) b)
       | _, [y] => Ok (map (fun x => op x y) a)
       | _, _ => Raise (ValueError "operands could not be broadcast together")
       end.

Definition add := ufunc2 Rplus.
Definition mul := ufunc2 Rmult.
(** [a / b] where no element of [b] is zero; a quotient by zero is an
    infinity or NaN in the program and is modelled by [IeeeDiv.div]. *)
Definition div := ufunc2 Rdiv.

(** [a / c] for a scalar [c] *)
Definition div_scalar (a : list R) (c : R) : list R :=
  map (fun x => x / c) a.

(** [np.diff(a)], that is [a[1:] - a[:-1]]; both slices have one length,
    so the subtraction never fails. *)
Definition diff (a : list R) : list R :=
  zip_with Rminus (from1 a) (upto_last a).

(** [np.cumsum(a)]: running sums, accumulated left to right. *)
Fixpoint cumsum_from (acc : R) (a : list R) : list R :=
  match a with
  | [] => []
  | x :: a' => (acc + x) :: cumsum_from (acc + x) a'
  end.

Definition cumsum (a : list R) : list R :=
  match a with
  | [] => []
  | x :: a' => x :: cumsum_from x a'
  end.

(** [a[0] = v] *)
Definition set0 (a : list R) (v : R) : result (list R) :=
  match a with
  | [] => Raise IndexError
  | _ :: a' => Ok (v :: a')
  end.

(** [a[1:] = src]: the source must have the length of the slice, or
    length one (it is then stretched over the slice). *)
Definition set_from1 (a src : list R) : result (list R) :=
  match a with
  | [] =>
      match src with
      | [] | [_] => Ok []
      | _ => Raise (ValueError "could not broadcast input array")
      end
  | x :: a' =>
      if Nat.eqb (length src) (length a') then Ok (x :: src)
      else match src with
           | [v] => Ok (x :: map (fun _ => v) a')
           | _ => Raise (ValueError "could not broadcast input array")
           end
  end.

(** [np.max(a)]; the reduction of an empty array raises. *)
Definition max (a : list R) : result R :=
  match a with
  | [] => Raise (ValueError "zero-size array to reduction operation maximum which has no identity")
  | x :: a' => Ok (fold_left Rmax a' x)
  end.

(** [a >= c] for a scalar [c]: the boolean mask. *)
Definition ge_scalar (a : list R) (c : R) : list bool :=
  map (fun x => if Rle_dec c x then true else false) a.

(** [np.argwhere(mask)] on a one-dimensional mask: the positions that
    hold [True], in increasing order. *)
Fixpoint argwhere_from (i : nat) (mask : list bool) : list nat :=
  match mask with
  | [] => []
  | b :: mask' =>
      if b then i :: argwhere_from (S i) mask' else argwhere_from (S i) mask'
  end.

Definition argwhere (mask : list bool) : list nat := argwhere_from 0 mask.

(** [idx[0, 0]] on the result of [argwhere]. *)
Definition first_index (idx : list nat) : result Z :=
  match idx with
  | [] => Raise IndexError
  | i :: _ => Ok (Z.of_nat i)
  end.

(** [a[k:]] with Python's slice semantics: a negative start counts from
    the end, and the start is clipped to the array. *)
Definition slice_start (k : Z) (n : nat) : nat :=
  if (k <? 0)%Z then Z.to_nat (Z.max 0 (Z.of_nat n + k))
  else Nat.min (Z.to_nat k) n.

Definition slice_from {A : Type} (k : Z) (a : list A) : list A :=
  skipn (slice_start k (length a)) a.

End Np.

(** ** Two-column matrices and [np.linalg.lstsq]

    The only matrix of the program has two columns; it is a list of rows. *)

Definition matrix2 : Type := list (R * R).

Definition col0 (m : matrix2) : list R := map fst m.
Definition col1 (m : matrix2) : list R := map snd m.

Module Linalg.

(** [np.ones((n, 2), float)] *)
Definition ones2 (n : nat) : matrix2 := repeat (1, 1) n.

(** [m[:, 0] = col] *)
Fixpoint zip_col0 (m : matrix2) (col : list R) : matrix2 :=
  match m, col with
  | (_, b) :: m', x :: col' => (x, b) :: zip_col0 m' col'
  | _, _ => []
  end.

Definition set_col0 (m : matrix2) (col : list R) : result matrix2 :=
  if Nat.eqb (length col) (length m) then Ok (zip_col0 m col)
  else match col with
       | [v] => Ok (map (fun row => (v, snd row)) m)
       | _ => Raise (ValueError "could not broadcast input array")
       end.

(** Inner product of two columns. *)
Fixpoint dot (u v : list R) : R :=
  match u, v with
  | x :: u', y :: v' => x * y + dot u' v'
  | _, _ => 0
  end.

(** The determinant of the Gram matrix of the two columns. *)
Definition gram_det (a : matrix2) : R :=
  dot (col0 a) (col0 a) * dot (col1 a) (col1 a)
  - dot (col0 a) (col1 a) * dot (col0 a) (col1 a).

(** The solution component of [np.linalg.lstsq(a, b)] for a two-column
    [a], in exact arithmetic: the least-squares solution of minimal norm.
    With [G] the Gram matrix of the columns, a full-rank system is solved
    by Cramer's rule on the normal equations [G p = a^T b]; a
    rank-deficient one by the pseudo-inverse, which for rank one is
    [a^T / (|a|_F)^2]. *)
Definition solve2 (a : matrix2) (b : list R) : R * R :=
  let saa := dot (col0 a) (col0 a) in
  let sab := dot (col0 a) (col1 a) in
  let sbb := dot (col1 a) (col1 a) in
  let say := dot (col0 a) b in
  let sby := dot (col1 a) b in
  if Req_dec_T (gram_det a) 0
  then (say / (saa + sbb), sby / (saa + sbb))
  else ((sbb * say - sab * sby) / gram_det a,
        (saa * sby - sab * say) / gram_det a).

(** [np.linalg.lstsq(a, b)[0]] as the compiled program calls it, on
    arrays of finite values: empty arrays are refused, and so is a row
    count that differs from the length of [b]; both are [LinAlgError].
    (Entries that are not finite are refused too; see [IeeeDiv.lstsq].) *)
Definition lstsq (a : matrix2) (b : list R) : result (R * R) :=
  match a with
  | [] => Raise LinAlgError
  | _ :: _ =>
      if Nat.eqb (length a) (length b) then Ok (solve2 a b)
      else Raise LinAlgError
  end.

End Linalg.

(** ** The program *)

(** [_line_fitting_make_rhs_matrix_from_xdata] *)
Definition _line_fitting_make_rhs_matrix_from_xdata (xdata : list R)
  : result matrix2 :=
  let out_matrix := Linalg.ones2 (Np.len xdata) in
  out_matrix <- Linalg.set_col0 out_matrix xdata ;;
  Ok out_matrix.

(** [fit_line_to_data_using_lls]: the pair is [(m, b)], slope first. *)
Definition fit_line_to_data_using_lls (xdata ydata : list R)
  : result (R * R) :=
  let make_2d_matrix := _line_fitting_make_rhs_matrix_from_xdata in
  matrix <- make_2d_matrix xdata ;;
  fit_ans <- Linalg.lstsq matrix ydata ;;
  Ok fit_ans.

(** [cumulative_trapezoidal_integral] *)
Definition cumulative_trapezoidal_integral (xdata ydata : list R)
  (initial : R) : result (list R) :=
  let dx := Np.diff xdata in
  let cum_int := Np.zeros (Np.len xdata) in
  cum_int <- Np.set0 cum_int initial ;;
  s <- Np.add (Np.from1 ydata) (Np.upto_last ydata) ;;
  p <- Np.mul dx s ;;
  cum_int <- Np.set_from1 cum_int (Np.cumsum (Np.div_scalar p 2)) ;;
  Ok cum_int.

(** [calculate_patlak_x] *)
Definition calculate_patlak_x (tac_times tac_vals : list R)
  : result (list R) :=
  cumulative_integral <- cumulative_trapezoidal_integral tac_times tac_vals 0 ;;
  Np.div cumulative_integral tac_vals.

(** [get_index_from_threshold] on finite values: the index is an integer,
    [-1] when the threshold is larger than every time.
    [Ieee.get_index_from_threshold] is the function on values that may be
    NaN or infinite, and is this one on finite values. *)
Definition get_index_from_threshold (times_in_minutes : list R)
  (t_thresh_in_minutes : R) : result Z :=
  m <- Np.max times_in_minutes ;;
  if Rlt_dec m t_thresh_in_minutes
  then Ok (-1)%Z
  else Np.first_index
         (Np.argwhere (Np.ge_scalar times_in_minutes t_thresh_in_minutes)).

(** The type of a graphical method:
    [(input_tac_values, region_tac_values, tac_times_in_minutes,
      t_thresh_in_minutes)] to the fitted pair. *)
Definition analysis : Type :=
  list R -> list R -> list R -> R -> result (R * R).

(** [patlak_analysis], and below it the two other analyses, where no
    denominator of the fit window is zero; [IeeeDiv.patlak_analysis] and
    its two companions are the analyses with the quotients by zero, and
    agree with these where there is none. *)
Definition patlak_analysis : analysis :=
  fun input_tac_values region_tac_values tac_times_in_minutes
      t_thresh_in_minutes =>
  t_thresh <- get_index_from_threshold tac_times_in_minutes
                t_thresh_in_minutes ;;
  patlak_x <- calculate_patlak_x tac_times_in_minutes input_tac_values ;;
  patlak_y <- Np.div region_tac_values input_tac_values ;;
  fit_line_to_data_using_lls (Np.slice_from t_thresh patlak_x)
                             (Np.slice_from t_thresh patlak_y).

(** [logan_analysis] *)
Definition logan_analysis : analysis :=
  fun input_tac_values region_tac_values tac_times_in_minutes
      t_thresh_in_minutes =>
  t_thresh <- get_index_from_threshold tac_times_in_minutes
                t_thresh_in_minutes ;;
  ci <- cumulative_trapezoidal_integral tac_times_in_minutes
          input_tac_values 0 ;;
  logan_x <- Np.div ci region_tac_values ;;
  cr <- cumulative_trapezoidal_integral tac_times_in_minutes
          region_tac_values 0 ;;
  logan_y <- Np.div cr region_tac_values ;;
  fit_line_to_data_using_lls (Np.slice_from t_thresh logan_x)
                             (Np.slice_from t_thresh logan_y).

(** [alternative_logan_analysis] *)
Definition alternative_logan_analysis : analysis :=
  fun input_tac_values region_tac_values tac_times_in_minutes
      t_thresh_in_minutes =>
  t_thresh <- get_index_from_threshold tac_times_in_minutes
                t_thresh_in_minutes ;;
  ci <- cumulative_trapezoidal_integral tac_times_in_minutes
          input_tac_values 0 ;;
  alt_logan_x <- Np.div ci region_tac_values ;;
  cr <- cumulative_trapezoidal_integral tac_times_in_minutes
          region_tac_values 0 ;;
  alt_logan_y <- Np.div cr input_tac_values ;;
  fit_line_to_data_using_lls (Np.slice_from t_thresh alt_logan_x)
                             (Np.slice_from t_thresh alt_logan_y).

(** [get_graphical_analysis_method]: the selected function, or the
    [ValueError] whose message ends with the name that was given. *)
Definition invalid_method_name (method_name : string) : string :=
  ("Invalid method_name! Must be either 'patlak', 'logan', or 'alt_logan'. Got "
   ++ method_name)%string.

Definition get_graphical_analysis_method (method_name : string)
  : result analysis :=
  if String.eqb method_name "patlak" then Ok patlak_analysis
  else if String.eqb method_name "logan" then Ok logan_analysis
  else if String.eqb method_name "alt_logan" then Ok alternative_logan_analysis
  else Raise (ValueError (invalid_method_name method_name)).

(** ** The contract of the spec, stated position by position *)

(** The trapezoidal-rule area between the samples [i - 1] and [i]. *)
Definition trapezoid (times values : list R) (i : nat) : R :=
  (nth i times 0 - nth (i - 1) times 0)
  * (nth i values 0 + nth (i - 1) values 0) / 2.

(** The array the program accumulates:
    [dx * (ydata[1:] + ydata[:-1]) / 2.0] on operands of one length. *)
Definition trapezoid_areas (xdata ydata : list R) : list R :=
  Np.div_scalar
    (Np.zip_with Rmult (Np.diff xdata)
       (Np.zip_with Rplus (Np.from1 ydata) (Np.upto_last ydata))) 2.

(** The sum of the first [i] trapezoid areas. *)
Fixpoint sum_trapezoids (times values : list R) (i : nat) : R :=
  match i with
  | O => 0
  | S j => sum_trapezoids times values j + trapezoid times values (S j)
  end.

(** The cumulative integral as the spec words it: position [0] is
    [initial], position [i] is position [i - 1] plus the area. *)
Fixpoint spec_cumulative_integral (times values : list R) (initial : R)
  (i : nat) : R :=
  match i with
  | O => initial
  | S j => spec_cumulative_integral times values initial j
           + trapezoid times values (S j)
  end.

(** The method table of the spec. *)
Inductive method : Type := Patlak | Logan | AltLogan.

Definition spec_x (m : method) (input_values region_values times : list R)
  (i : nat) : R :=
  match m with
  | Patlak =>
      spec_cumulative_integral times input_values 0 i / nth i input_values 0
  | Logan | AltLogan =>
      spec_cumulative_integral times input_values 0 i / nth i region_values 0
  end.

Definition spec_y (m : method) (input_values region_values times : list R)
  (i : nat) : R :=
  match m with
  | Patlak => nth i region_values 0 / nth i input_values 0
  | Logan =>
      spec_cumulative_integral times region_values 0 i / nth i region_values 0
  | AltLogan =>
      spec_cumulative_integral times region_values 0 i / nth i input_values 0
  end.

(** A sequence of [n] positions given by a function of the position. *)
Definition tabulate (f : nat -> R) (n : nat) : list R := map f (seq 0 n).

(** The transform of the program with its two coordinate sequences written
    position by position.  It shares the locator, the slice and the line
    fit with the program: it is the form of the program the proofs work
    on, not a reading of the spec. *)
Definition tabulated_transform (m : method) : analysis :=
  fun input_values region_values times t_thresh =>
  idx <- get_index_from_threshold times t_thresh ;;
  let x := tabulate (spec_x m input_values region_values times)
             (length times) in
  let y := tabulate (spec_y m input_values region_values times)
             (length times) in
  fit_line_to_data_using_lls (Np.slice_from idx x) (Np.slice_from idx y).

(** The residual sum of squares of the line [y = m x + b] on the data. *)
Fixpoint sum_sq_residuals (m b : R) (xdata ydata : list R) : R :=
  match xdata, ydata with
  | x :: xs, y :: ys =>
      (m * x + b - y) * (m * x + b - y) + sum_sq_residuals m b xs ys
  | _, _ => 0
  end.

(** The integrator contract in the spec's words, on one input: the result
    has the length of the input, starts with [initial], and every later
    position adds the area to the position before it. *)
Definition integral_contract_of_spec (times values : list R) (initial : R)
  : Prop :=
  exists r,
    cumulative_trapezoidal_integral times values initial = Ok r
    /\ length r = length times
    /\ nth 0 r 0 = initial
    /\ forall i, (1 <= i < length times)%nat ->
         nth i r 0 = nth (i - 1) r 0 + trapezoid times values i.

(** The sum of the squares of [p * u_i + q * v_i]. *)
Fixpoint qsum (p q : R) (u v : list R) : R :=
  match u, v with
  | x :: u', w :: v' => (p * x + q * w) * (p * x + q * w) + qsum p q u' v'
  | _, _ => 0
  end.

(** The residual sum of squares of [m * u + c * v] against [y], for the
    columns [u] and [v] of a matrix. *)
Fixpoint rss (m c : R) (u v y : list R) : R :=
  match u, v, y with
  | x :: u', w :: v', z :: y' =>
      (m * x + c * w - z) * (m * x + c * w - z) + rss m c u' v' y'
  | _, _, _ => 0
  end.

(** ** The analysis object ([GraphicalAnalysis])

    The values kept in [analysis_props] are [None], strings and floats; a
    [dict] with string keys is the list of its items in insertion order.
    [os.path.abspath] depends on the working directory of the process and
    is an argument of the constructor here. *)

Inductive pyval : Type :=
| PyNone
| PyStr (s : string)
| PyFloat (x : R).

Definition dict : Type := list (string * pyval).

(** [d[key] = v]: an existing key keeps its place, a new one is appended. *)
Fixpoint dict_set (d : dict) (key : string) (v : pyval) : dict :=
  match d with
  | [] => [(key, v)]
  | (k, w) :: d' =>
      if String.eqb k key then (k, v) :: d'
      else (k, w) :: dict_set d' key v
  end.

(** [d.get(key)] *)
Fixpoint dict_get (d : dict) (key : string) : option pyval :=
  match d with
  | [] => None
  | (k, w) :: d' => if String.eqb k key then Some w else dict_get d' key
  end.

Record GraphicalAnalysis : Type := mkGraphicalAnalysis {
  input_tac_path : string;
  roi_tac_path : string;
  output_directory : string;
  output_filename_prefix : string;
  analysis_props : dict
}.

(** [GraphicalAnalysis.init_analysis_props] *)
Definition init_analysis_props (self : GraphicalAnalysis) : dict :=
  [("FilePathPTAC"%string, PyStr (input_tac_path self));
   ("FilePathTTAC"%string, PyStr (roi_tac_path self));
   ("MethodName"%string, PyNone);
   ("ThresholdTime"%string, PyNone);
   ("StartFrameTime"%string, PyNone);
   ("EndFrameTime"%string, PyNone);
   ("NumberOfPointsFit"%string, PyNone)].

(** [GraphicalAnalysis.__init__] *)
Definition GraphicalAnalysis_init (abspath : string -> string)
  (input_tac_path roi_tac_path output_directory output_filename_prefix
   : string) : GraphicalAnalysis :=
  let self :=
    mkGraphicalAnalysis (abspath input_tac_path) (abspath roi_tac_path)
      (abspath output_directory) output_filename_prefix [] in
  mkGraphicalAnalysis (abspath input_tac_path) (abspath roi_tac_path)
    (abspath output_directory) output_filename_prefix
    (init_analysis_props self).

(** [GraphicalAnalysis.run_analysis]: two items of [analysis_props] are
    written; nothing is returned. *)
Definition run_analysis (self : GraphicalAnalysis) (method_name : string)
  (t_thresh_in_minutes : R) : GraphicalAnalysis :=
  let props := dict_set (analysis_props self) "MethodName"
                 (PyStr method_name) in
  let props := dict_set props "ThresholdTime"
                 (PyFloat t_thresh_in_minutes) in
  mkGraphicalAnalysis (input_tac_path self) (roi_tac_path self)
    (output_directory self) (output_filename_prefix self) props.

(** The object after a sequence of calls of [run_analysis]. *)
Definition run_analyses (self : GraphicalAnalysis)
  (calls : list (string * R)) : GraphicalAnalysis :=
  fold_left (fun o c => run_analysis o (fst c) (snd c)) calls self.

(** ** The image-derived input function
    ([pet_cli/image_derived_input_function.py])

    An array of any dimension is its shape and its elements in C order.
    One-dimensional arrays stay lists, as above. *)

Record ndarray (A : Type) : Type := mkArray {
  shape : list nat;
  data : list A
}.

Arguments mkArray {A} shape data.
Arguments shape {A} n.
Arguments data {A} n.

Module Idif.

(** Truncation toward zero. *)
Definition trunc (x : R) : Z :=
  if Rle_dec 0 x then Int_part x else (- Int_part (- x))%Z.

Definition int64_min : Z := (- 2 ^ 63)%Z.
Definition int64_max : Z := (2 ^ 63 - 1)%Z.

(** [x.astype(int)] on a finite float: truncation toward zero into
    [int64].  Outside the range of [int64] the conversion has no defined
    result in C; on x86-64 it gives [-2^63], which is what NumPy returns
    there. *)
Definition astype_int (x : R) : Z :=
  let z := trunc x in
  if ((int64_min <=? z) && (z <=? int64_max))%Z%bool then z else int64_min.

(** Shapes are compared as tuples. *)
Definition shape_eqb (s1 s2 : list nat) : bool :=
  if list_eq_dec Nat.eq_dec s1 s2 then true else false.

(** The number of elements of one frame. *)
Definition size_of (s : list nat) : nat := fold_right Nat.mul 1%nat s.

(** The sum over the frames [lo], ..., [lo + count - 1] at voxel [v], in an
    array whose frames hold [V] elements each. *)
Fixpoint sum_frames (elements : list R) (V v lo count : nat) : R :=
  match count with
  | O => 0
  | S c => nth (lo * V + v) elements 0 + sum_frames elements V v (S lo) c
  end.

(** The outcome of [np.mean(a[lo:hi], axis=0)]: the mean image, or, over no
    frame at all, the image filled with NaN (of the shape of a frame). *)
Inductive mean_image : Type :=
| Mean (image : ndarray R)
| MeanOfNoFrame (frame_shape : list nat).

(** [make_early_mean_image_from_4d_pet]; the defaults of the two frame
    indices are 3 and 7. *)
Definition make_early_mean_image_from_4d_pet (pet_4d_data : ndarray R)
  (start_frame end_frame : Z) : result mean_image :=
  match shape pet_4d_data with
  | [] => Raise IndexError
  | frames :: frame_shape =>
      if ((start_frame <? 0) || (end_frame >=? Z.of_nat frames))%Z%bool
      then Raise (ValueError "Frame indices are out of bounds.")
      else
        let lo := Np.slice_start start_frame frames in
        let hi := Np.slice_start (end_frame + 1) frames in
        let count := (hi - lo)%nat in
        let V := size_of frame_shape in
        match count with
        | O => Ok (MeanOfNoFrame frame_shape)
        | S _ =>
            Ok (Mean (mkArray frame_shape
                        (tabulate
                           (fun v => sum_frames (data pet_4d_data) V v lo count
                                     / INR count) V)))
        end
  end.

(** [crop_by_input_function_mask] *)
Definition crop_by_input_function_mask
  (early_mean_data carotid_mask_data : ndarray R) : result (ndarray R) :=
  if negb (shape_eqb (shape early_mean_data) (shape carotid_mask_data))
  then Raise (ValueError "array1 and array2 must have the same shape.")
  else Ok (mkArray (shape early_mean_data)
             (Np.zip_with Rmult (data early_mean_data)
                (data carotid_mask_data))).

(** [get_frame_time_midpoints], on one-dimensional arrays. *)
Definition get_frame_time_midpoints
  (frame_start_times frame_duration_times : list R) : result (list Z) :=
  frame_midpoint_times <-
    Np.add frame_start_times (Np.div_scalar frame_duration_times 2) ;;
  Ok (map astype_int frame_midpoint_times).

End Idif.

(** An array is well formed when it holds as many elements as its shape
    says. *)
Definition well_formed {A : Type} (a : ndarray A) : Prop :=
  length (data a) = Idif.size_of (shape a).

(** ** Special values: NaN, the infinities and division by zero

    The definitions above are the program on finite values.  Two places
    of the program meet values that are not finite, and are modelled here
    with them.

    Comparisons.  [get_index_from_threshold] and
    [make_threshold_binary_mask] compare floats, and every comparison with
    NaN is false; their arrays are lists of [float].

    Division.  The three analyses divide arrays of finite values, which
    gives an infinity or NaN where the denominator is zero, and the
    compiled [np.linalg.lstsq] refuses entries that are not finite with
    [LinAlgError].  Their quotient arrays are lists of [value]; this is
    the module [IeeeDiv]. *)

Module Ieee.

Inductive float : Type :=
| Fin (x : R)
| PInf
| NInf
| NaN.

Definition is_nan (a : float) : bool :=
  match a with NaN => true | _ => false end.

(** [a < b] *)
Definition ltb (a b : float) : bool :=
  match a, b with
  | Fin x, Fin y => if Rlt_dec x y then true else false
  | Fin _, PInf => true
  | NInf, Fin _ => true
  | NInf, PInf => true
  | _, _ => false
  end.

(** [a <= b] *)
Definition leb (a b : float) : bool :=
  match a, b with
  | Fin x, Fin y => if Rle_dec x y then true else false
  | Fin _, PInf => true
  | NInf, Fin _ => true
  | NInf, PInf => true
  | PInf, PInf => true
  | NInf, NInf => true
  | _, _ => false
  end.

(** [a * b]; the product of an infinity and zero is NaN. *)
Definition mul (a b : float) : float :=
  match a, b with
  | NaN, _ | _, NaN => NaN
  | Fin x, Fin y => Fin (x * y)
  | Fin x, PInf | PInf, Fin x =>
      if Rlt_dec 0 x then PInf else if Rlt_dec x 0 then NInf else NaN
  | Fin x, NInf | NInf, Fin x =>
      if Rlt_dec 0 x then NInf else if Rlt_dec x 0 then PInf else NaN
  | PInf, PInf | NInf, NInf => PInf
  | PInf, NInf | NInf, PInf => NInf
  end.

(** One step of the running maximum of [np.max]: NaN is kept once met. *)
Definition max2 (acc v : float) : float :=
  if is_nan acc then acc
  else if is_nan v then v
  else if ltb acc v then v else acc.

(** [np.max(a)] *)
Definition max (a : list float) : result float :=
  match a with
  | [] => Raise (ValueError "zero-size array to reduction operation maximum which has no identity")
  | x :: a' => Ok (fold_left max2 a' x)
  end.

(** [a >= c] for a scalar [c] *)
Definition ge_scalar (a : list float) (c : float) : list bool :=
  map (fun x => leb c x) a.

(** [get_index_from_threshold].  [Np.first_index] on an empty list of
    positions is the read of [[0, 0]] outside the array: [IndexError] in
    Python, an unchecked read in the compiled program. *)
Definition get_index_from_threshold (times_in_minutes : list float)
  (t_thresh_in_minutes : float) : result Z :=
  m <- max times_in_minutes ;;
  if ltb m t_thresh_in_minutes
  then Ok (-1)%Z
  else Np.first_index
         (Np.argwhere (ge_scalar times_in_minutes t_thresh_in_minutes)).

(** [make_threshold_binary_mask]: [np.where(masked_data < threshold, 0, 1)]
    is an array of integers. *)
Definition make_threshold_binary_mask (masked_data : ndarray float)
  (threshold : float) : ndarray Z :=
  let threshold_binary_data :=
    mkArray (shape masked_data)
      (map (fun x => if ltb x threshold then 0%Z else 1%Z)
         (data masked_data)) in
  threshold_binary_data.

Fixpoint zip_floats (op : float -> float -> float) (a b : list float)
  : list float :=
  match a, b with
  | x :: a', y :: b' => op x y :: zip_floats op a' b'
  | _, _ => []
  end.

(** [crop_by_input_function_mask] *)
Definition crop_by_input_function_mask
  (early_mean_data carotid_mask_data : ndarray float)
  : result (ndarray float) :=
  if negb (Idif.shape_eqb (shape early_mean_data) (shape carotid_mask_data))
  then Raise (ValueError "array1 and array2 must have the same shape.")
  else Ok (mkArray (shape early_mean_data)
             (zip_floats mul (data early_mean_data)
                (data carotid_mask_data))).

End Ieee.

Module IeeeDiv.

(** A quotient of two finite values: finite, or not ([NonFinite] stands
    for an infinity or NaN). *)
Inductive value : Type :=
| Finite (x : R)
| NonFinite.

(** [a / b] on finite [a] and [b] *)
Definition true_divide (a b : R) : value :=
  if Req_dec_T b 0 then NonFinite else Finite (a / b).

Fixpoint zip_with {A : Type} (op : R -> R -> A) (a b : list R) : list A :=
  match a, b with
  | x :: a', y :: b' => op x y :: zip_with op a' b'
  | _, _ => []
  end.

(** The broadcasting of [Np.ufunc2], for an operation into any type. *)
Definition ufunc2 {A : Type} (op : R -> R -> A) (a b : list R)
  : result (list A) :=
  if Nat.eqb (length a) (length b) then Ok (zip_with op a b)
  else match a, b with
       | [x], _ => Ok (map (fun y => op x y) b)
       | _, [y] => Ok (map (fun x => op x y) a)
       | _, _ => Raise (ValueError "operands could not be broadcast together")
       end.

(** [a / b] on arrays of finite values *)
Definition div : list R -> list R -> result (list value) :=
  ufunc2 true_divide.

(** The finite values of an array, when all are finite. *)
Fixpoint finite_values (a : list value) : option (list R) :=
  match a with
  | [] => Some []
  | Finite x :: a' =>
      match finite_values a' with
      | Some l => Some (x :: l)
      | None => None
      end
  | NonFinite :: _ => None
  end.

Definition vmatrix2 : Type := list (value * value).

Fixpoint finite_matrix (m : vmatrix2) : option matrix2 :=
  match m with
  | [] => Some []
  | (Finite x, Finite y) :: m' =>
      match finite_matrix m' with
      | Some l => Some ((x, y) :: l)
      | None => None
      end
  | _ :: _ => None
  end.

(** [np.linalg.lstsq(a, b)[0]] as the compiled program calls it: an entry
    that is not finite, an empty array and a row count that differs from
    the length of [b] are all refused with [LinAlgError]. *)
Definition lstsq (a : vmatrix2) (b : list value) : result (R * R) :=
  match finite_matrix a, finite_values b with
  | Some a', Some b' => Linalg.lstsq a' b'
  | _, _ => Raise LinAlgError
  end.

Definition ones2 (n : nat) : vmatrix2 := repeat (Finite 1, Finite 1) n.

Fixpoint zip_col0 (m : vmatrix2) (col : list value) : vmatrix2 :=
  match m, col with
  | (_, b) :: m', x :: col' => (x, b) :: zip_col0 m' col'
  | _, _ => []
  end.

Definition set_col0 (m : vmatrix2) (col : list value) : result vmatrix2 :=
  if Nat.eqb (length col) (length m) then Ok (zip_col0 m col)
  else match col with
       | [v] => Ok (map (fun row => (v, snd row)) m)
       | _ => Raise (ValueError "could not broadcast input array")
       end.

(** [_line_fitting_make_rhs_matrix_from_xdata] *)
Definition _line_fitting_make_rhs_matrix_from_xdata (xdata : list value)
  : result vmatrix2 :=
  let out_matrix := ones2 (length xdata) in
  out_matrix <- set_col0 out_matrix xdata ;;
  Ok out_matrix.

(** [fit_line_to_data_using_lls] *)
Definition fit_line_to_data_using_lls (xdata ydata : list value)
  : result (R * R) :=
  let make_2d_matrix := _line_fitting_make_rhs_matrix_from_xdata in
  matrix <- make_2d_matrix xdata ;;
  fit_ans <- lstsq matrix ydata ;;
  Ok fit_ans.

(** [calculate_patlak_x] *)
Definition calculate_patlak_x (tac_times tac_vals : list R)
  : result (list value) :=
  cumulative_integral <- cumulative_trapezoidal_integral tac_times tac_vals 0 ;;
  div cumulative_integral tac_vals.

(** [patlak_analysis] *)
Definition patlak_analysis : analysis :=
  fun input_tac_values region_tac_values tac_times_in_minutes
      t_thresh_in_minutes =>
  t_thresh <- get_index_from_threshold tac_times_in_minutes
                t_thresh_in_minutes ;;
  patlak_x <- calculate_patlak_x tac_times_in_minutes input_tac_values ;;
  patlak_y <- div region_tac_values input_tac_values ;;
  fit_line_to_data_using_lls (Np.slice_from t_thresh patlak_x)
                             (Np.slice_from t_thresh patlak_y).

(** [logan_analysis] *)
Definition logan_analysis : analysis :=
  fun input_tac_values region_tac_values tac_times_in_minutes
      t_thresh_in_minutes =>
  t_thresh <- get_index_from_threshold tac_times_in_minutes
                t_thresh_in_minutes ;;
  ci <- cumulative_trapezoidal_integral tac_times_in_minutes
          input_tac_values 0 ;;
  logan_x <- div ci region_tac_values ;;
  cr <- cumulative_trapezoidal_integral tac_times_in_minutes
          region_tac_values 0 ;;
  logan_y <- div cr region_tac_values ;;
  fit_line_to_data_using_lls (Np.slice_from t_thresh logan_x)
                             (Np.slice_from t_thresh logan_y).

(** [alternative_logan_analysis] *)
Definition alternative_logan_analysis : analysis :=
  fun input_tac_values region_tac_values tac_times_in_minutes
      t_thresh_in_minutes =>
  t_thresh <- get_index_from_threshold tac_times_in_minutes
                t_thresh_in_minutes ;;
  ci <- cumulative_trapezoidal_integral tac_times_in_minutes
          input_tac_values 0 ;;
  alt_logan_x <- div ci region_tac_values ;;
  cr <- cumulative_trapezoidal_integral tac_times_in_minutes
          region_tac_values 0 ;;
  alt_logan_y <- div cr input_tac_values ;;
  fit_line_to_data_using_lls (Np.slice_from t_thresh alt_logan_x)
                             (Np.slice_from t_thresh alt_logan_y).

End IeeeDiv.

(** ** The method table of the spec, read without the program

    The threshold index, the fit window and the least-squares line as the
    spec words them; none of these definitions calls the program. *)

(** [k] is the smallest index whose time is at or after the threshold. *)
Definition spec_threshold_index (times : list R) (t : R) (k : nat) : Prop :=
  (k < length times)%nat
  /\ t <= nth k times 0
  /\ forall j, (j < k)%nat -> nth j times 0 < t.

(** The positions [k], ..., [n - 1] of a sequence given position by
    position: the slice from the threshold index to the end. *)
Definition spec_window (f : nat -> R) (k n : nat) : list R :=
  map f (seq k (n - k)).

(** [(slope, intercept)] is a least-squares line of the data: no line has
    a smaller residual sum of squares. *)
Definition least_squares_line (xs ys : list R) (slope intercept : R)
  : Prop :=
  forall m' b',
    sum_sq_residuals slope intercept xs ys
    <= sum_sq_residuals m' b' xs ys.

(** The denominators of a row of the method table are not zero from
    position [k] on. *)
Definition denominators_nonzero (m : method) (input_values region_values
  : list R) (k n : nat) : Prop :=
  forall i, (k <= i < n)%nat ->
    match m with
    | Patlak => nth i input_values 0 <> 0
    | Logan => nth i region_values 0 <> 0
    | AltLogan => nth i input_values 0 <> 0 /\ nth i region_values 0 <> 0
    end.

(** The numerators and denominators of the table: [spec_x] and [spec_y]
    are their quotients. *)
Definition x_numerator (input_values times : list R) (i : nat) : R :=
  spec_cumulative_integral times input_values 0 i.

Definition x_denominator (m : method) (input_values region_values : list R)
  (i : nat) : R :=
  match m with
  | Patlak => nth i input_values 0
  | Logan | AltLogan => nth i region_values 0
  end.

Definition y_numerator (m : method) (region_values times : list R)
  (i : nat) : R :=
  match m with
  | Patlak => nth i region_values 0
  | Logan | AltLogan => spec_cumulative_integral times region_values 0 i
  end.

Definition y_denominator (m : method) (input_values region_values : list R)
  (i : nat) : R :=
  match m with
  | Patlak | AltLogan => nth i input_values 0
  | Logan => nth i region_values 0
  end.

(** The function of the program for a row of the method table. *)
Definition program_transform (m : method) : analysis :=
  match m with
  | Patlak => IeeeDiv.patlak_analysis
  | Logan => IeeeDiv.logan_analysis
  | AltLogan => IeeeDiv.alternative_logan_analysis
  end.

(** The contract of the method transforms in the spec's words, on one
    input: the transform returns a least-squares line of the coordinates
    of its table row, taken from the threshold index to the end. *)
Definition method_table_contract (m : method) (input_values region_values
  times : list R) (t_thresh : R) : Prop :=
  exists k slope intercept,
    spec_threshold_index times t_thresh k
    /\ program_transform m input_values region_values times t_thresh
       = Ok (slope, intercept)
    /\ least_squares_line
         (spec_window (spec_x m input_values region_values times) k
            (length times))
         (spec_window (spec_y m input_values region_values times) k
            (length times))
         slope intercept.

(** The safety of the index read in the spec's words, on one input with
    maximum [m]: a threshold at or below the maximum gives an index inside
    the array, and the mask has no matching position only when the
    threshold exceeds the maximum. *)
Definition index_read_contract (times : list Ieee.float) (t : Ieee.float)
  : Prop :=
  forall m,
    Ieee.max times = Ok m ->
    (Ieee.leb t m = true ->
     exists k,
       Ieee.get_index_from_threshold times t = Ok (Z.of_nat k)
       /\ (k < length times)%nat)
    /\ (Np.argwhere (Ieee.ge_scalar times t) = [] -> Ieee.ltb m t = true).

(** ** Lists and arrays *)

Section ArrayLemmas.

Lemma zip_with_length op a b :
  length a = length b -> length (Np.zip_with op a b) = length a.
Proof.
  revert b; induction a as [|x a IH]; intros [|y b] H; simpl in *;
    try discriminate; auto.
Qed.

Lemma zip_with_nth op a b i :
  length a = length b -> (i < length a)%nat ->
  nth i (Np.zip_with op a b) 0 = op (nth i a 0) (nth i b 0).
Proof.
  revert b i; induction a as [|x a IH]; intros [|y b] i H Hi; simpl in *;
    try discriminate; try lia.
  destruct i as [|i]; [reflexivity|]. apply IH; lia.
Qed.

Lemma ufunc2_same_length op a b :
  length a = length b -> Np.ufunc2 op a b = Ok (Np.zip_with op a b).
Proof.
  intros H. unfold Np.ufunc2. rewrite H, Nat.eqb_refl. reflexivity.
Qed.

Lemma from1_length a : length (Np.from1 a) = (length a - 1)%nat.
Proof. destruct a; simpl; lia. Qed.

Lemma upto_last_length a : length (Np.upto_last a) = (length a - 1)%nat.
Proof.
  unfold Np.upto_last. induction a as [|x a IH]; [reflexivity|].
destruct a as [|y a]; [reflexivity|].
change (S (length (removelast (y :: a))) = (length (x :: y :: a) - 1)%nat).
rewrite IH. simpl. lia.
Qed.

Lemma from1_nth a i : nth i (Np.from1 a) 0 = nth (S i) a 0.
Proof. destruct a; simpl; [destruct i|]; reflexivity. Qed.

Lemma upto_last_nth a i :
  (S i < length a)%nat -> nth i (Np.upto_last a) 0 = nth i a 0.
Proof.
  unfold Np.upto_last. revert i.
  induction a as [|x [|y a] IH]; intros i Hi; simpl in *; try lia.
  destruct i as [|i]; [reflexivity|]. apply IH. lia.
Qed.

Lemma diff_length a : length (Np.diff a) = (length a - 1)%nat.
Proof.
  unfold Np.diff. rewrite zip_with_length; rewrite from1_length; auto.
  now rewrite upto_last_length.
Qed.

Lemma diff_nth a i :
  (S i < length a)%nat -> nth i (Np.diff a) 0 = nth (S i) a 0 - nth i a 0.
Proof.
  intros Hi. unfold Np.diff.
  rewrite zip_with_nth.
  - now rewrite from1_nth, upto_last_nth.
  - now rewrite from1_length, upto_last_length.
  - rewrite from1_length. lia.
Qed.

Lemma div_scalar_length a c : length (Np.div_scalar a c) = length a.
Proof. apply length_map. Qed.

Lemma div_scalar_nth a c i :
  (i < length a)%nat -> nth i (Np.div_scalar a c) 0 = nth i a 0 / c.
Proof.
  intros Hi. unfold Np.div_scalar.
  rewrite (nth_indep _ 0 (0 / c)) by (rewrite length_map; exact Hi).
  apply (map_nth (fun x => x / c)).
Qed.

Lemma cumsum_from_length acc a : length (Np.cumsum_from acc a) = length a.
Proof. revert acc; induction a; intros; simpl; auto. Qed.

Lemma cumsum_length a : length (Np.cumsum a) = length a.
Proof. destruct a; simpl; auto using cumsum_from_length. Qed.

Lemma cumsum_from_nth acc a i :
  (i < length a)%nat ->
  nth i (Np.cumsum_from acc a) 0
  = nth i (acc :: Np.cumsum_from acc a) 0 + nth i a 0.
Proof.
  revert acc i; induction a as [|x a IH]; intros acc i Hi;
    [simpl in Hi; lia|].
  destruct i as [|i]; [reflexivity|].
  simpl in Hi. cbn [Np.cumsum_from nth].
  apply IH. lia.
Qed.

Lemma cumsum_nth0 a : nth 0 (Np.cumsum a) 0 = nth 0 a 0.
Proof. destruct a; reflexivity. Qed.

Lemma cumsum_nthS a i :
  (S i < length a)%nat ->
  nth (S i) (Np.cumsum a) 0 = nth i (Np.cumsum a) 0 + nth (S i) a 0.
Proof.
  destruct a as [|x a]; intros Hi; [simpl in Hi; lia|].
  simpl in Hi. cbn [Np.cumsum nth].
  apply cumsum_from_nth. lia.
Qed.

Lemma zeros_length n : length (Np.zeros n) = n.
Proof. apply repeat_length. Qed.

Lemma tabulate_length f n : length (tabulate f n) = n.
Proof. unfold tabulate. now rewrite length_map, length_seq. Qed.

Lemma tabulate_nth f n i :
  (i < n)%nat -> nth i (tabulate f n) 0 = f i.
Proof.
  intros Hi. unfold tabulate.
  rewrite (nth_indep _ 0 (f 0%nat)) by (now rewrite length_map, length_seq).
  rewrite (map_nth f). now rewrite seq_nth.
Qed.

Lemma tabulate_ext a f :
  (forall i, (i < length a)%nat -> nth i a 0 = f i) ->
  a = tabulate f (length a).
Proof.
  intros H. apply (nth_ext _ _ 0 0).
  - now rewrite tabulate_length.
  - intros i Hi. rewrite tabulate_nth by exact Hi. now apply H.
Qed.

End ArrayLemmas.

(** ** The integrator *)

Section Integrator.

Variables xdata ydata : list R.
Hypothesis same_length : length xdata = length ydata.
Hypothesis nonempty : xdata <> [].

Lemma trapezoid_areas_length :
  length (trapezoid_areas xdata ydata) = (length xdata - 1)%nat.
Proof.
  unfold trapezoid_areas.
  rewrite div_scalar_length, zip_with_length; rewrite diff_length; auto.
  rewrite zip_with_length; rewrite from1_length, ?upto_last_length; lia.
Qed.

Lemma trapezoid_areas_nth i :
  (S i < length xdata)%nat ->
  nth i (trapezoid_areas xdata ydata) 0 = trapezoid xdata ydata (S i).
Proof.
  intros Hi. unfold trapezoid_areas, trapezoid.
  assert (Hs : length (Np.zip_with Rplus (Np.from1 ydata) (Np.upto_last ydata))
               = (length xdata - 1)%nat).
  { rewrite zip_with_length; rewrite from1_length, ?upto_last_length; lia. }
  rewrite div_scalar_nth
    by (rewrite zip_with_length; rewrite diff_length; lia).
  rewrite zip_with_nth by (rewrite diff_length; lia).
  rewrite diff_nth by exact Hi.
  rewrite zip_with_nth
    by (rewrite from1_length, ?upto_last_length; lia).
  rewrite from1_nth, upto_last_nth by lia.
  simpl. now rewrite Nat.sub_0_r.
Qed.

(** On operands of one length the integrator does not raise, and its
    result is [initial] followed by the running sums of the areas. *)
Lemma cumulative_trapezoidal_integral_eq initial :
  cumulative_trapezoidal_integral xdata ydata initial
  = Ok (initial :: Np.cumsum (trapezoid_areas xdata ydata)).
Proof.
  assert (Hlen : exists n, length xdata = S n).
  { destruct xdata; [contradiction|]. simpl. eauto. }
  destruct Hlen as [n Hlen].
  unfold cumulative_trapezoidal_integral, Np.add, Np.mul, Np.len.
  rewrite Hlen. cbn [Np.zeros repeat Np.set0 bind].
  rewrite ufunc2_same_length
    by (rewrite from1_length, upto_last_length; reflexivity).
  cbn [bind].
  rewrite ufunc2_same_length.
  2:{ rewrite diff_length, zip_with_length;
      rewrite from1_length, ?upto_last_length; lia. }
  cbn [bind]. fold (trapezoid_areas xdata ydata).
  unfold Np.set_from1.
  rewrite cumsum_length, trapezoid_areas_length, repeat_length, Hlen.
  replace (S n - 1)%nat with n by lia.
  now rewrite Nat.eqb_refl.
Qed.

Lemma cumsum_areas_sum i :
  (S i < length xdata)%nat ->
  nth i (Np.cumsum (trapezoid_areas xdata ydata)) 0
  = sum_trapezoids xdata ydata (S i).
Proof.
  induction i as [|i IH]; intros Hi.
  - rewrite cumsum_nth0, trapezoid_areas_nth by exact Hi. simpl. lra.
  - rewrite cumsum_nthS by (rewrite trapezoid_areas_length; lia).
    rewrite IH by lia. rewrite trapezoid_areas_nth by exact Hi.
    reflexivity.
Qed.

Lemma spec_cumulative_integral_sum initial i :
  spec_cumulative_integral xdata ydata initial i
  = initial + sum_trapezoids xdata ydata i.
Proof.
  induction i as [|i IH]; simpl; [lra|]. rewrite IH. lra.
Qed.

End Integrator.

(** C8: on [times = [0, 1]], [values = [2, 4]], [initial = 0] the
    integrator returns exactly [[0, 3]]; the second entry is the area
    [(1 - 0) * (2 + 4) / 2]. *)
Theorem integral_two_points :
  cumulative_trapezoidal_integral [0; 1] [2; 4] 0 = Ok [0; 3]
  /\ (1 - 0) * (2 + 4) / 2 = 3.
Proof.
  split; [|lra].
  rewrite cumulative_trapezoidal_integral_eq by (reflexivity || discriminate).
  cbn. do 3 f_equal. lra.
Qed.

(** C2, the claim as stated, fails: with [initial = 1] on
    [times = [0, 1]], [values = [2, 4]] the result is [[1, 3]], and
    position 1 is not position 0 plus the area 3. *)
Lemma integral_contract_of_spec_fails :
  ~ integral_contract_of_spec [0; 1] [2; 4] 1.
Proof.
  intros (r & Hr & _ & _ & Hstep).
  rewrite cumulative_trapezoidal_integral_eq in Hr
    by (reflexivity || discriminate).
  injection Hr as <-.
  specialize (Hstep 1%nat). cbn in Hstep.
  assert (H : (1 <= 1 < 2)%nat) by lia. specialize (Hstep H).
  unfold trapezoid in Hstep. cbn in Hstep. lra.
Qed.

(** C2, amended: for [times] and [values] of one length [n >= 1] and every
    [initial], the integrator returns a sequence of length [n] whose
    position 0 is [initial], whose position 1 is the first trapezoid area
    alone ([initial] is not added to it), and whose position [i], for every
    [i >= 2], is position [i - 1] plus the area between [i - 1] and [i]. *)
Theorem integral_contract (times values : list R) (initial : R) :
  length times = length values ->
  (1 <= length times)%nat ->
  exists r,
    cumulative_trapezoidal_integral times values initial = Ok r
    /\ length r = length times
    /\ nth 0 r 0 = initial
    /\ ((1 < length times)%nat -> nth 1 r 0 = trapezoid times values 1)
    /\ forall i, (2 <= i < length times)%nat ->
         nth i r 0 = nth (i - 1) r 0 + trapezoid times values i.
Proof.
  intros Hlen Hn.
  assert (Hne : times <> []) by (destruct times; [simpl in Hn; lia|discriminate]).
  exists (initial :: Np.cumsum (trapezoid_areas times values)).
  split; [now apply cumulative_trapezoidal_integral_eq|].
  split; [simpl; rewrite cumsum_length, trapezoid_areas_length by assumption; lia|].
  split; [reflexivity|].
  split.
  - intros H1. cbn [nth].
    rewrite cumsum_nth0. now apply trapezoid_areas_nth.
  - intros i Hi. destruct i as [|[|i]]; try lia.
    cbn [nth Nat.sub]. 
    rewrite cumsum_nthS by (rewrite trapezoid_areas_length by assumption; lia).
    rewrite trapezoid_areas_nth by (assumption || lia). reflexivity.
Qed.

Lemma integral_contract_witness :
  exists r,
    cumulative_trapezoidal_integral [0; 1; 3] [2; 4; 6] 1 = Ok r
    /\ length r = 3%nat
    /\ nth 0 r 0 = 1
    /\ ((1 < 3)%nat -> nth 1 r 0 = trapezoid [0; 1; 3] [2; 4; 6] 1)
    /\ forall i, (2 <= i < 3)%nat ->
         nth i r 0 = nth (i - 1) r 0 + trapezoid [0; 1; 3] [2; 4; 6] i.
Proof.
  apply (integral_contract [0; 1; 3] [2; 4; 6] 1); simpl; [reflexivity|lia].
Defined.

(** C9: for [times] and [values] of one length [n >= 2] and any two values
    [a] and [b] of [initial], the two results agree at every position
    [i >= 1], and that position is the sum of the first [i] trapezoid areas:
    [initial] reaches position 0 only. *)
Theorem initial_only_at_position_0 (times values : list R) (a b : R) :
  length times = length values ->
  (2 <= length times)%nat ->
  exists ra rb,
    cumulative_trapezoidal_integral times values a = Ok ra
    /\ cumulative_trapezoidal_integral times values b = Ok rb
    /\ nth 0 ra 0 = a /\ nth 0 rb 0 = b
    /\ forall i, (1 <= i < length times)%nat ->
         nth i ra 0 = nth i rb 0
         /\ nth i ra 0 = sum_trapezoids times values i.
Proof.
  intros Hlen Hn.
  assert (Hne : times <> []) by (destruct times; [simpl in Hn; lia|discriminate]).
  exists (a :: Np.cumsum (trapezoid_areas times values)),
         (b :: Np.cumsum (trapezoid_areas times values)).
  split; [now apply cumulative_trapezoidal_integral_eq|].
  split; [now apply cumulative_trapezoidal_integral_eq|].
  split; [reflexivity|]. split; [reflexivity|].
  intros i Hi. destruct i as [|i]; [lia|]. cbn [nth].
  split; [reflexivity|].
  apply cumsum_areas_sum; (assumption || lia).
Qed.

Lemma initial_only_at_position_0_witness :
  exists ra rb,
    cumulative_trapezoidal_integral [0; 1; 3] [2; 4; 6] 5 = Ok ra
    /\ cumulative_trapezoidal_integral [0; 1; 3] [2; 4; 6] 7 = Ok rb
    /\ nth 0 ra 0 = 5 /\ nth 0 rb 0 = 7
    /\ forall i, (1 <= i < 3)%nat ->
         nth i ra 0 = nth i rb 0
         /\ nth i ra 0 = sum_trapezoids [0; 1; 3] [2; 4; 6] i.
Proof.
  apply (initial_only_at_position_0 [0; 1; 3] [2; 4; 6] 5 7); simpl;
    [reflexivity|lia].
Defined.

(** ** The threshold locator *)

Section Locator.

Lemma fold_left_Rmax_lower a x : x <= fold_left Rmax a x.
Proof.
  revert x; induction a as [|y a IH]; intros x; simpl; [lra|].
  eapply Rle_trans; [apply (Rmax_l x y)|apply IH].
Qed.

Lemma fold_left_Rmax_upper a x y :
  In y (x :: a) -> y <= fold_left Rmax a x.
Proof.
  revert x; induction a as [|z a IH]; intros x [Hy|Hy]; simpl in *.
  - lra.
  - contradiction.
  - subst y. eapply Rle_trans; [apply (Rmax_l x z)|apply fold_left_Rmax_lower].
  - destruct Hy as [Hy|Hy].
    + subst y. eapply Rle_trans; [apply (Rmax_r x z)|apply fold_left_Rmax_lower].
    + apply IH. now right.
Qed.

Lemma fold_left_Rmax_in a x : In (fold_left Rmax a x) (x :: a).
Proof.
  revert x; induction a as [|z a IH]; intros x; simpl; [now left|].
  destruct (IH (Rmax x z)) as [H|H].
  - rewrite <- H. unfold Rmax. destruct (Rle_dec x z); auto.
  - auto.
Qed.

(** [np.max] of a non-empty array is an element of it that bounds all. *)
Lemma max_spec times :
  times <> [] ->
  exists m, Np.max times = Ok m
            /\ In m times
            /\ forall x, In x times -> x <= m.
Proof.
  destruct times as [|x a]; [contradiction|]. intros _.
  exists (fold_left Rmax a x). split; [reflexivity|].
  split; [apply fold_left_Rmax_in|]. intros y Hy.
  now apply fold_left_Rmax_upper.
Qed.

(** The first position of the mask [times >= t], when some time reaches
    the threshold. *)
Lemma first_index_found times t i :
  (exists x, In x times /\ t <= x) ->
  exists k, (k < length times)%nat
    /\ Np.first_index (Np.argwhere_from i (Np.ge_scalar times t))
       = Ok (Z.of_nat (i + k))
    /\ t <= nth k times 0
    /\ forall j, (j < k)%nat -> nth j times 0 < t.
Proof.
  revert i; induction times as [|x a IH]; intros i (y & Hy & Hty).
  - contradiction.
  - simpl. destruct (Rle_dec t x) as [Hle|Hgt].
    + exists 0%nat. simpl. rewrite Nat.add_0_r.
      repeat split; auto; try lia.
    + destruct Hy as [Hy|Hy]; [subst; contradiction|].
      destruct (IH (S i)) as (k & Hk & Hfirst & Hnth & Hmin); [eauto|].
      exists (S k). simpl. replace (i + S k)%nat with (S i + k)%nat by lia.
      repeat split; auto; try lia.
      intros [|j] Hj; [lra|]. apply Hmin. lia.
Qed.

(** When no time reaches the threshold the mask has no [True] position. *)
Lemma argwhere_none times t i :
  (forall x, In x times -> x < t) ->
  Np.argwhere_from i (Np.ge_scalar times t) = [].
Proof.
  revert i; induction times as [|x a IH]; intros i H; [reflexivity|].
  simpl. destruct (Rle_dec t x) as [Hle|Hgt].
  - specialize (H x (or_introl eq_refl)). lra.
  - apply IH. intros y Hy. apply H. now right.
Qed.

Lemma argwhere_empty_all_below times t i :
  Np.argwhere_from i (Np.ge_scalar times t) = [] ->
  forall x, In x times -> x < t.
Proof.
  revert i; induction times as [|x a IH]; intros i H y Hy; [contradiction|].
  simpl in H. destruct (Rle_dec t x) as [Hle|Hgt]; [discriminate|].
  destruct Hy as [Hy|Hy]; [subst; lra|]. eapply IH; eauto.
Qed.

(** The locator on a non-empty array: the smallest index whose time
    reaches the threshold, or [-1] when the maximum is below it. *)
Lemma get_index_from_threshold_found times t :
  (exists x, In x times /\ t <= x) ->
  exists k, (k < length times)%nat
    /\ get_index_from_threshold times t = Ok (Z.of_nat k)
    /\ t <= nth k times 0
    /\ forall j, (j < k)%nat -> nth j times 0 < t.
Proof.
  intros Hex.
  assert (Hne : times <> []) by (destruct Hex as (x & Hx & _); now destruct times).
  destruct (max_spec times Hne) as (m & Hm & Hin & Hub).
  unfold get_index_from_threshold. rewrite Hm. cbn [bind].
  destruct (Rlt_dec m t) as [Hlt|_].
  - destruct Hex as (x & Hx & Htx). specialize (Hub x Hx). lra.
  - destruct (first_index_found times t 0 Hex) as (k & Hk & Hf & Hnth & Hmin).
    exists k. unfold Np.argwhere. rewrite Hf. auto.
Qed.

Lemma get_index_from_threshold_sentinel times t :
  times <> [] ->
  (forall x, In x times -> x < t) ->
  get_index_from_threshold times t = Ok (-1)%Z.
Proof.
  intros Hne Hall.
  destruct (max_spec times Hne) as (m & Hm & Hin & Hub).
  unfold get_index_from_threshold. rewrite Hm. cbn [bind].
  destruct (Rlt_dec m t) as [_|Hge]; [reflexivity|].
  specialize (Hall m Hin). lra.
Qed.

End Locator.

(** Decides the comparisons of a goal on concrete reals. *)
Ltac decide_reals :=
  repeat match goal with
    | |- context [Rle_dec ?a ?b] => destruct (Rle_dec a b); try lra
    | |- context [Rlt_dec ?a ?b] => destruct (Rlt_dec a b); try lra
    | |- context [Req_dec_T ?a ?b] => destruct (Req_dec_T a b); try lra
    end.

(** C4: for every non-empty ascending [times]: when some element is
    [>= t_thresh] the locator returns the smallest index [i] with
    [times[i] >= t_thresh], and when [t_thresh] exceeds every element it
    returns [-1]; [[0, 1, 2, 3]] with [1.5] gives [2], and [[0, 1, 2]] with
    [5] gives [-1]. *)
Theorem locate_threshold_contract :
  (forall times t,
      times <> [] ->
      Sorted Rle times ->
      ((exists i, (i < length times)%nat /\ t <= nth i times 0) ->
       exists k, get_index_from_threshold times t = Ok (Z.of_nat k)
                 /\ (k < length times)%nat
                 /\ t <= nth k times 0
                 /\ forall j, (j < k)%nat -> nth j times 0 < t)
      /\ ((forall i, (i < length times)%nat -> nth i times 0 < t) ->
          get_index_from_threshold times t = Ok (-1)%Z))
  /\ get_index_from_threshold [0; 1; 2; 3] 1.5 = Ok 2%Z
  /\ get_index_from_threshold [0; 1; 2] 5 = Ok (-1)%Z.
Proof.
  split; [|split].
  - intros times t Hne _. split.
    + intros (i & Hi & Hti).
      destruct (get_index_from_threshold_found times t)
        as (k & Hk & Hget & Hnth & Hmin).
      { exists (nth i times 0). split; [now apply nth_In|exact Hti]. }
      exists k. auto.
    + intros Hall. apply get_index_from_threshold_sentinel; [exact Hne|].
      intros x Hx. destruct (In_nth _ _ 0 Hx) as (i & Hi & <-). now apply Hall.
  - unfold get_index_from_threshold. cbn. unfold Rmax. decide_reals.
    cbn. decide_reals. reflexivity.
  - unfold get_index_from_threshold. cbn. unfold Rmax. decide_reals.
    reflexivity.
Qed.

Lemma locate_threshold_contract_witness :
  ((exists i, (i < length [0; 1; 2; 3])%nat /\ 1.5 <= nth i [0; 1; 2; 3] 0) ->
   exists k, get_index_from_threshold [0; 1; 2; 3] 1.5 = Ok (Z.of_nat k)
             /\ (k < length [0; 1; 2; 3])%nat
             /\ 1.5 <= nth k [0; 1; 2; 3] 0
             /\ forall j, (j < k)%nat -> nth j [0; 1; 2; 3] 0 < 1.5)
  /\ ((forall i, (i < length [0; 1; 2; 3])%nat -> nth i [0; 1; 2; 3] 0 < 1.5) ->
      get_index_from_threshold [0; 1; 2; 3] 1.5 = Ok (-1)%Z).
Proof.
  apply (proj1 locate_threshold_contract [0; 1; 2; 3] 1.5).
  - discriminate.
  - repeat constructor; lra.
Defined.

(** ** The line fitter *)

Section NormalEquations.

Lemma qsum_nonneg p q u v : 0 <= qsum p q u v.
Proof.
  revert v; induction u as [|x u IH]; intros [|w v]; simpl; try lra.
  specialize (IH v). pose proof (Rle_0_sqr (p * x + q * w)) as Hsq.
  unfold Rsqr in Hsq. lra.
Qed.

Lemma qsum_expand p q u v :
  length u = length v ->
  qsum p q u v
  = p * p * Linalg.dot u u + 2 * p * q * Linalg.dot u v
    + q * q * Linalg.dot v v.
Proof.
  revert v; induction u as [|x u IH]; intros [|w v] H; simpl in *;
    try discriminate; [ring|].
  rewrite IH by lia. ring.
Qed.

Lemma qsum_zero_dot p q u v y :
  length u = length v ->
  qsum p q u v = 0 ->
  p * Linalg.dot u y + q * Linalg.dot v y = 0.
Proof.
  revert v y; induction u as [|x u IH]; intros [|w v] y H H0; simpl in *;
    try discriminate; [ring|].
  destruct y as [|z y]; [ring|].
  pose proof (qsum_nonneg p q u v) as Hq.
  pose proof (Rle_0_sqr (p * x + q * w)) as Hs. unfold Rsqr in Hs.
  assert (Hsq : (p * x + q * w) * (p * x + q * w) = 0) by lra.
  assert (Hx : p * x + q * w = 0).
  { destruct (Rmult_integral _ _ Hsq); assumption. }
  assert (Hrest : qsum p q u v = 0) by lra.
  specialize (IH v y ltac:(lia) Hrest).
  replace (p * (x * z + Linalg.dot u y) + q * (w * z + Linalg.dot v y))
    with (z * (p * x + q * w) + (p * Linalg.dot u y + q * Linalg.dot v y))
    by ring.
  rewrite Hx, IH. ring.
Qed.

Lemma rss_expand m c u v y :
  length u = length v -> length u = length y ->
  rss m c u v y
  = m * m * Linalg.dot u u + 2 * m * c * Linalg.dot u v
    + c * c * Linalg.dot v v
    - 2 * m * Linalg.dot u y - 2 * c * Linalg.dot v y + Linalg.dot y y.
Proof.
  revert v y; induction u as [|x u IH]; intros [|w v] [|z y] Hv Hy;
    simpl in *; try discriminate; [ring|].
  rewrite IH by lia. ring.
Qed.

Lemma rss_ones m c x y :
  rss m c x (map (fun _ => 1) x) y = sum_sq_residuals m c x y.
Proof.
  revert y; induction x as [|a x IH]; intros [|z y]; simpl; try reflexivity.
  rewrite IH. ring.
Qed.

Lemma col_lengths (a : matrix2) :
  length (col0 a) = length a /\ length (col1 a) = length a.
Proof. unfold col0, col1. now rewrite !length_map. Qed.

(** A singular Gram matrix means parallel columns. *)
Lemma singular_gram_parallel u v y :
  length u = length v ->
  Linalg.dot u u * Linalg.dot v v - Linalg.dot u v * Linalg.dot u v = 0 ->
  Linalg.dot v v * Linalg.dot u y = Linalg.dot u v * Linalg.dot v y
  /\ Linalg.dot u u * Linalg.dot v y = Linalg.dot u v * Linalg.dot u y.
Proof.
  intros Hlen Hdet.
  set (suu := Linalg.dot u u) in *. set (suv := Linalg.dot u v) in *.
  set (svv := Linalg.dot v v) in *.
  split.
  - pose proof (qsum_zero_dot svv (- suv) u v y Hlen) as H.
    rewrite qsum_expand in H by exact Hlen.
    fold suu suv svv in H.
    replace (svv * svv * suu + 2 * svv * - suv * suv + - suv * - suv * svv)
      with (svv * (suu * svv - suv * suv)) in H by ring.
    rewrite Hdet, Rmult_0_r in H. specialize (H eq_refl). lra.
  - pose proof (qsum_zero_dot (- suv) suu u v y Hlen) as H.
    rewrite qsum_expand in H by exact Hlen.
    fold suu suv svv in H.
    replace (- suv * - suv * suu + 2 * - suv * suu * suv + suu * suu * svv)
      with (suu * (suu * svv - suv * suv)) in H by ring.
    rewrite Hdet, Rmult_0_r in H. specialize (H eq_refl). lra.
Qed.

Lemma dot_self_zero u y :
  Linalg.dot u u = 0 -> Linalg.dot u y = 0.
Proof.
  intros H.
  pose proof (qsum_zero_dot 1 0 u u y eq_refl) as Hq.
  rewrite qsum_expand in Hq by reflexivity. rewrite H in Hq.
  assert (H0 : 1 * Linalg.dot u y + 0 * Linalg.dot u y = 0) by (apply Hq; ring).
  lra.
Qed.

Lemma dot_self_nonneg u : 0 <= Linalg.dot u u.
Proof.
  pose proof (qsum_nonneg 1 0 u u) as H.
  rewrite qsum_expand in H by reflexivity. lra.
Qed.

Lemma dot_comm u v : Linalg.dot u v = Linalg.dot v u.
Proof.
  revert v; induction u as [|x u IH]; intros [|w v]; simpl; try reflexivity.
  rewrite IH. ring.
Qed.

(** The solution of the model of [lstsq] satisfies the normal equations. *)
Lemma solve2_normal_equations (a : matrix2) (y : list R) :
  let u := col0 a in
  let v := col1 a in
  let '(m, c) := Linalg.solve2 a y in
  Linalg.dot u u * m + Linalg.dot u v * c = Linalg.dot u y
  /\ Linalg.dot u v * m + Linalg.dot v v * c = Linalg.dot v y.
Proof.
  cbv zeta. unfold Linalg.solve2, Linalg.gram_det.
  destruct (col_lengths a) as [Hu Hv].
  assert (Hlen : length (col0 a) = length (col1 a)) by congruence.
  set (u := col0 a) in *. set (v := col1 a) in *.
  destruct (Req_dec_T _ 0) as [Hdet|Hdet].
  - destruct (singular_gram_parallel u v y Hlen Hdet) as [P1 P2].
    destruct (Req_dec_T (Linalg.dot u u + Linalg.dot v v) 0) as [HT|HT].
    + pose proof (dot_self_nonneg u). pose proof (dot_self_nonneg v).
      assert (Hu0 : Linalg.dot u u = 0) by lra.
      assert (Hv0 : Linalg.dot v v = 0) by lra.
      rewrite (dot_self_zero u y Hu0), (dot_self_zero v y Hv0).
      rewrite (dot_self_zero u v Hu0), Hu0, Hv0.
      unfold Rdiv. split; ring.
    + split.
      * replace (Linalg.dot u u * (Linalg.dot u y / (Linalg.dot u u + Linalg.dot v v))
                 + Linalg.dot u v * (Linalg.dot v y / (Linalg.dot u u + Linalg.dot v v)))
          with ((Linalg.dot u u * Linalg.dot u y
                 + Linalg.dot u v * Linalg.dot v y)
                / (Linalg.dot u u + Linalg.dot v v))
          by (field; exact HT).
        rewrite <- P1. field. exact HT.
      * replace (Linalg.dot u v * (Linalg.dot u y / (Linalg.dot u u + Linalg.dot v v))
                 + Linalg.dot v v * (Linalg.dot v y / (Linalg.dot u u + Linalg.dot v v)))
          with ((Linalg.dot u v * Linalg.dot u y
                 + Linalg.dot v v * Linalg.dot v y)
                / (Linalg.dot u u + Linalg.dot v v))
          by (field; exact HT).
        rewrite <- P2. field. exact HT.
  - split; field; exact Hdet.
Qed.

(** Hence it minimises the residual sum of squares. *)
Lemma solve2_minimises (a : matrix2) (y : list R) (m' c' : R) :
  length a = length y ->
  let '(m, c) := Linalg.solve2 a y in
  rss m c (col0 a) (col1 a) y <= rss m' c' (col0 a) (col1 a) y.
Proof.
  intros Hy. pose proof (solve2_normal_equations a y) as Hn.
  cbv zeta in Hn. destruct (Linalg.solve2 a y) as [m c].
  destruct Hn as [N1 N2].
  destruct (col_lengths a) as [Hu Hv].
  rewrite !rss_expand by congruence.
  pose proof (qsum_nonneg (m' - m) (c' - c) (col0 a) (col1 a)) as Hq.
  rewrite qsum_expand in Hq by congruence.
  match type of Hq with
  | 0 <= ?Q =>
      match goal with
      | |- ?L <= ?U =>
          assert (Hdiff : U - L = Q) by (rewrite <- N1, <- N2; ring)
      end
  end.
  lra.
Qed.

(** The design matrix: first column [xdata], second column ones. *)
Lemma make_rhs_matrix_eq (xdata : list R) :
  _line_fitting_make_rhs_matrix_from_xdata xdata
  = Ok (map (fun x => (x, 1)) xdata).
Proof.
  unfold _line_fitting_make_rhs_matrix_from_xdata, Linalg.set_col0,
    Linalg.ones2, Np.len.
  rewrite repeat_length, Nat.eqb_refl. cbn [bind]. f_equal.
  induction xdata as [|x xs IH]; simpl; [reflexivity|]. now rewrite IH.
Qed.

Lemma design_matrix_columns (xdata : list R) :
  col0 (map (fun x => (x, 1)) xdata) = xdata
  /\ col1 (map (fun x => (x, 1)) xdata) = map (fun _ => 1) xdata.
Proof.
  unfold col0, col1. rewrite !map_map. simpl. split; [apply map_id|reflexivity].
Qed.

Lemma lstsq_eq (a : matrix2) (b : list R) :
  a <> [] -> length a = length b ->
  Linalg.lstsq a b = Ok (Linalg.solve2 a b).
Proof.
  intros Hne H. unfold Linalg.lstsq.
  destruct a as [|r a']; [contradiction|]. now rewrite H, Nat.eqb_refl.
Qed.

Lemma fit_line_eq (xdata ydata : list R) :
  xdata <> [] ->
  length xdata = length ydata ->
  fit_line_to_data_using_lls xdata ydata
  = Ok (Linalg.solve2 (map (fun x => (x, 1)) xdata) ydata).
Proof.
  intros Hne H. unfold fit_line_to_data_using_lls.
  rewrite make_rhs_matrix_eq. cbn [bind].
  rewrite lstsq_eq; [reflexivity| |now rewrite length_map].
  destruct xdata; [contradiction|discriminate].
Qed.

Lemma fit_line_minimises (xdata ydata : list R) (m' b' : R) :
  length xdata = length ydata ->
  let '(m, b) := Linalg.solve2 (map (fun x => (x, 1)) xdata) ydata in
  sum_sq_residuals m b xdata ydata <= sum_sq_residuals m' b' xdata ydata.
Proof.
  intros H.
  pose proof (solve2_minimises (map (fun x => (x, 1)) xdata) ydata m' b') as Hm.
  rewrite length_map in Hm. specialize (Hm H).
  destruct (Linalg.solve2 _ ydata) as [m b].
  destruct (design_matrix_columns xdata) as [-> ->] in Hm.
  now rewrite !rss_ones in Hm.
Qed.

End NormalEquations.




(** ** The method transforms *)

Section Transforms.

Lemma tabulate_ext_in f g n :
  (forall i, (i < n)%nat -> f i = g i) -> tabulate f n = tabulate g n.
Proof.
  intros H. unfold tabulate. apply map_ext_in. intros i Hi.
  apply in_seq in Hi. apply H. lia.
Qed.

Lemma div_tabulate a b n :
  length a = n -> length b = n ->
  Np.div a b = Ok (tabulate (fun i => nth i a 0 / nth i b 0) n).
Proof.
  intros Ha Hb. unfold Np.div.
  rewrite ufunc2_same_length by congruence. f_equal.
  apply (nth_ext _ _ 0 0).
  - rewrite zip_with_length, tabulate_length; congruence.
  - intros i Hi. rewrite zip_with_length in Hi by congruence.
    rewrite zip_with_nth, tabulate_nth; (reflexivity || congruence || lia).
Qed.

Lemma cumulative_integral_tabulate times values :
  length values = length times ->
  times <> [] ->
  cumulative_trapezoidal_integral times values 0
  = Ok (tabulate (spec_cumulative_integral times values 0) (length times)).
Proof.
  intros Hlen Hne.
  rewrite cumulative_trapezoidal_integral_eq by (congruence || assumption).
  f_equal.
  assert (Hn : (1 <= length times)%nat)
    by (destruct times; [contradiction|simpl; lia]).
  apply (nth_ext _ _ 0 0).
  - simpl.
    rewrite cumsum_length, trapezoid_areas_length, tabulate_length
      by (congruence || assumption).
    lia.
  - intros i Hi. simpl in Hi.
    rewrite cumsum_length, trapezoid_areas_length in Hi
      by (congruence || assumption).
    rewrite tabulate_nth by lia.
    rewrite spec_cumulative_integral_sum.
    destruct i as [|i]; [simpl; lra|]. cbn [nth].
    rewrite cumsum_areas_sum by (congruence || assumption || lia). lra.
Qed.

(** Dividing a tabulated sequence: the quotient position by position. *)
Lemma div_tabulate_l f b n :
  length b = n ->
  Np.div (tabulate f n) b = Ok (tabulate (fun i => f i / nth i b 0) n).
Proof.
  intros Hb. rewrite (div_tabulate _ b n) by (now rewrite ?tabulate_length).
  f_equal. apply tabulate_ext_in. intros i Hi. now rewrite tabulate_nth.
Qed.

(** Each transform of the program is the transform of the method table. *)
Lemma patlak_analysis_spec inp reg times t :
  length inp = length times -> length reg = length times ->
  patlak_analysis inp reg times t = tabulated_transform Patlak inp reg times t.
Proof.
  intros Hi Hr. unfold patlak_analysis, tabulated_transform.
  destruct (get_index_from_threshold times t) as [idx|e] eqn:Hidx;
    [|reflexivity].
  cbn [bind].
  assert (Hne : times <> []).
  { intros ->. discriminate Hidx. }
  unfold calculate_patlak_x.
  rewrite cumulative_integral_tabulate by assumption. cbn [bind].
  rewrite div_tabulate_l by assumption. cbn [bind].
  rewrite (div_tabulate reg inp (length times)) by assumption. cbn [bind].
  reflexivity.
Qed.

Lemma logan_analysis_spec inp reg times t :
  length inp = length times -> length reg = length times ->
  logan_analysis inp reg times t = tabulated_transform Logan inp reg times t.
Proof.
  intros Hi Hr. unfold logan_analysis, tabulated_transform.
  destruct (get_index_from_threshold times t) as [idx|e] eqn:Hidx;
    [|reflexivity].
  cbn [bind].
  assert (Hne : times <> []).
  { intros ->. discriminate Hidx. }
  rewrite !cumulative_integral_tabulate by assumption. cbn [bind].
  rewrite !div_tabulate_l by assumption. cbn [bind].
  reflexivity.
Qed.

Lemma alternative_logan_analysis_spec inp reg times t :
  length inp = length times -> length reg = length times ->
  alternative_logan_analysis inp reg times t
  = tabulated_transform AltLogan inp reg times t.
Proof.
  intros Hi Hr. unfold alternative_logan_analysis, tabulated_transform.
  destruct (get_index_from_threshold times t) as [idx|e] eqn:Hidx;
    [|reflexivity].
  cbn [bind].
  assert (Hne : times <> []).
  { intros ->. discriminate Hidx. }
  rewrite !cumulative_integral_tabulate by assumption. cbn [bind].
  rewrite !div_tabulate_l by assumption. cbn [bind].
  reflexivity.
Qed.

(** [a[-1:]] is the one-element tail. *)
Lemma slice_from_minus1_tabulate f n :
  (1 <= n)%nat -> Np.slice_from (-1)%Z (tabulate f n) = [f (n - 1)%nat].
Proof.
  intros Hn. unfold Np.slice_from, Np.slice_start.
  rewrite tabulate_length. cbn [Z.ltb Z.compare].
  replace (Z.to_nat (Z.max 0 (Z.of_nat n + -1))) with (n - 1)%nat by lia.
  unfold tabulate. rewrite skipn_map, skipn_seq.
  replace (n - (n - 1))%nat with 1%nat by lia. reflexivity.
Qed.

(** With the sentinel, the spec-table transform is the fit of the last
    sample alone, and that fit returns. *)
Lemma tabulated_transform_sentinel m inp reg times t :
  times <> [] ->
  (forall x, In x times -> x < t) ->
  let last := (length times - 1)%nat in
  tabulated_transform m inp reg times t
  = fit_line_to_data_using_lls [spec_x m inp reg times last]
      [spec_y m inp reg times last]
  /\ is_ok (tabulated_transform m inp reg times t) = true.
Proof.
  intros Hne Hall last.
  assert (Hn : (1 <= length times)%nat)
    by (destruct times; [contradiction|simpl; lia]).
  assert (Heq : tabulated_transform m inp reg times t
                = fit_line_to_data_using_lls [spec_x m inp reg times last]
                    [spec_y m inp reg times last]).
  { unfold tabulated_transform.
    rewrite get_index_from_threshold_sentinel by assumption. cbn [bind].
    now rewrite !slice_from_minus1_tabulate by exact Hn. }
  split; [exact Heq|]. rewrite Heq.
  rewrite fit_line_eq by (discriminate || reflexivity). reflexivity.
Qed.

(** Hence no transform of the program fails on the sentinel. *)
Lemma transforms_return_on_sentinel inp reg times t :
  length inp = length times -> length reg = length times ->
  times <> [] ->
  (forall x, In x times -> x < t) ->
  is_ok (patlak_analysis inp reg times t) = true
  /\ is_ok (logan_analysis inp reg times t) = true
  /\ is_ok (alternative_logan_analysis inp reg times t) = true.
Proof.
  intros Hi Hr Hne Hall.
  rewrite patlak_analysis_spec, logan_analysis_spec,
    alternative_logan_analysis_spec by assumption.
  repeat split; now apply tabulated_transform_sentinel.
Qed.

End Transforms.

(** C1: the program at [times = [0, 1, 2]], [t_thresh = 5], with input
    values [[1, 1, 1]] and region values [[2, 2, 2]].  The locator
    returns the sentinel [-1]; no transform fails or returns early: each
    one slices its coordinates from index [-1] and returns the line fit of
    the one-element tail. *)
Theorem sentinel_fits_one_element_tail :
  get_index_from_threshold [0; 1; 2] 5 = Ok (-1)%Z
  /\ patlak_analysis [1; 1; 1] [2; 2; 2] [0; 1; 2] 5
     = fit_line_to_data_using_lls [2] [2]
  /\ logan_analysis [1; 1; 1] [2; 2; 2] [0; 1; 2] 5
     = fit_line_to_data_using_lls [1] [2]
  /\ alternative_logan_analysis [1; 1; 1] [2; 2; 2] [0; 1; 2] 5
     = fit_line_to_data_using_lls [1] [4]
  /\ fit_line_to_data_using_lls [2] [2] = Ok (4 / 5, 2 / 5)
  /\ fit_line_to_data_using_lls [1] [2] = Ok (1, 1)
  /\ fit_line_to_data_using_lls [1] [4] = Ok (2, 2).
Proof.
  assert (Hall : forall x, In x [0; 1; 2] -> x < 5).
  { intros x [<-|[<-|[<-|[]]]]; lra. }
  assert (Hne : [0; 1; 2] <> []) by discriminate.
  split; [now apply get_index_from_threshold_sentinel|].
  split.
  { rewrite patlak_analysis_spec by reflexivity.
    rewrite (proj1 (tabulated_transform_sentinel Patlak _ _ _ _ Hne Hall)).
    do 2 f_equal; f_equal; unfold spec_x, spec_y; cbn;
      unfold trapezoid; cbn; lra. }
  split.
  { rewrite logan_analysis_spec by reflexivity.
    rewrite (proj1 (tabulated_transform_sentinel Logan _ _ _ _ Hne Hall)).
    do 2 f_equal; f_equal; unfold spec_x, spec_y; cbn;
      unfold trapezoid; cbn; lra. }
  split.
  { rewrite alternative_logan_analysis_spec by reflexivity.
    rewrite (proj1 (tabulated_transform_sentinel AltLogan _ _ _ _ Hne Hall)).
    do 2 f_equal; f_equal; unfold spec_x, spec_y; cbn;
      unfold trapezoid; cbn; lra. }
  repeat split;
    rewrite fit_line_eq by (discriminate || reflexivity);
    unfold Linalg.solve2, Linalg.gram_det; cbn;
    (destruct (Req_dec_T _ 0) as [_|H0]; [|exfalso; apply H0; lra]);
    do 2 f_equal; lra.
Qed.

(** ** The dispatcher *)

(** C5: the dispatcher succeeds exactly on ["patlak"], ["logan"] and
    ["alt_logan"], with the matching analysis function; on every other
    name it raises the [ValueError] whose message ends with that name, as
    for ["bogus"]. *)
Theorem dispatcher_names (method_name : string) :
  (method_name = "patlak"%string ->
   get_graphical_analysis_method method_name = Ok patlak_analysis)
  /\ (method_name = "logan"%string ->
      get_graphical_analysis_method method_name = Ok logan_analysis)
  /\ (method_name = "alt_logan"%string ->
      get_graphical_analysis_method method_name
      = Ok alternative_logan_analysis)
  /\ (method_name <> "patlak"%string ->
      method_name <> "logan"%string ->
      method_name <> "alt_logan"%string ->
      get_graphical_analysis_method method_name
      = Raise (ValueError
                 ("Invalid method_name! Must be either 'patlak', 'logan', or 'alt_logan'. Got "
                  ++ method_name)%string))
  /\ (is_ok (get_graphical_analysis_method method_name) = true <->
      method_name = "patlak"%string \/ method_name = "logan"%string
      \/ method_name = "alt_logan"%string)
  /\ get_graphical_analysis_method "bogus"
     = Raise (ValueError
                "Invalid method_name! Must be either 'patlak', 'logan', or 'alt_logan'. Got bogus").
Proof.
  unfold get_graphical_analysis_method, invalid_method_name.
  repeat split.
  - now intros ->.
  - now intros ->.
  - now intros ->.
  - intros H1 H2 H3.
    apply String.eqb_neq in H1, H2, H3. now rewrite H1, H2, H3.
  - destruct (String.eqb_spec method_name "patlak"); [auto|].
    destruct (String.eqb_spec method_name "logan"); [auto|].
    destruct (String.eqb_spec method_name "alt_logan"); [auto|].
    discriminate.
  - intros [ -> | [ -> | -> ] ]; reflexivity.
Qed.

Lemma dispatcher_names_witness :
  get_graphical_analysis_method "patlak" = Ok patlak_analysis
  /\ get_graphical_analysis_method "nope"
     = Raise (ValueError
                "Invalid method_name! Must be either 'patlak', 'logan', or 'alt_logan'. Got nope").
Proof.
  split.
  - apply (proj1 (dispatcher_names "patlak")). reflexivity.
  - apply (proj1 (proj2 (proj2 (proj2 (dispatcher_names "nope")))));
      discriminate.
Defined.



(** ** Further properties of the integrator *)

Section IntegratorProperties.

(** The result of the integrator, position by position. *)
Lemma cumulative_trapezoidal_integral_nth xdata ydata initial :
  length xdata = length ydata ->
  xdata <> [] ->
  exists r,
    cumulative_trapezoidal_integral xdata ydata initial = Ok r
    /\ length r = length xdata
    /\ nth 0 r 0 = initial
    /\ forall i, (1 <= i < length xdata)%nat ->
         nth i r 0 = sum_trapezoids xdata ydata i.
Proof.
  intros Hlen Hne.
  exists (initial :: Np.cumsum (trapezoid_areas xdata ydata)).
  split; [now apply cumulative_trapezoidal_integral_eq|].
  assert (Hn : (1 <= length xdata)%nat)
    by (destruct xdata; [contradiction|simpl; lia]).
  split.
  { simpl. rewrite cumsum_length, trapezoid_areas_length by assumption. lia. }
  split; [reflexivity|].
  intros [|i] Hi; [lia|]. cbn [nth].
  apply cumsum_areas_sum; (assumption || lia).
Qed.

Lemma sum_trapezoids_step_eq x y x' y' i :
  (forall j, (1 <= j <= i)%nat -> trapezoid x y j = trapezoid x' y' j) ->
  sum_trapezoids x y i = sum_trapezoids x' y' i.
Proof.
  induction i as [|i IH]; intros H; [reflexivity|]. simpl.
  rewrite IH by (intros j Hj; apply H; lia).
  rewrite (H (S i)) by lia. reflexivity.
Qed.

Lemma nth_repeat_lt (c : R) n i : (i < n)%nat -> nth i (repeat c n) 0 = c.
Proof.
  revert i; induction n as [|n IH]; intros [|i] Hi; simpl; try lia; auto.
  apply IH. lia.
Qed.

Lemma sum_trapezoids_constant times c i :
  (i < length times)%nat ->
  sum_trapezoids times (repeat c (length times)) i
  = c * (nth i times 0 - nth 0 times 0).
Proof.
  induction i as [|i IH]; intros Hi; simpl; [ring|].
  rewrite IH by lia. unfold trapezoid. simpl. rewrite Nat.sub_0_r.
  rewrite !nth_repeat_lt by lia. field.
Qed.

Lemma sum_trapezoids_nonneg_step times values i :
  (forall j, (S j < length times)%nat ->
             nth j times 0 <= nth (S j) times 0) ->
  (forall j, (j < length times)%nat -> 0 <= nth j values 0) ->
  (S i < length times)%nat ->
  0 <= trapezoid times values (S i).
Proof.
  intros Hasc Hpos Hi. unfold trapezoid. simpl. rewrite Nat.sub_0_r.
  pose proof (Hasc i Hi). pose proof (Hpos i ltac:(lia)).
  pose proof (Hpos (S i) Hi).
  apply Rmult_le_pos; [|lra]. apply Rmult_le_pos; lra.
Qed.

Lemma sum_trapezoids_monotone times values i j :
  (forall k, (S k < length times)%nat ->
             nth k times 0 <= nth (S k) times 0) ->
  (forall k, (k < length times)%nat -> 0 <= nth k values 0) ->
  (i <= j)%nat -> (j < length times)%nat ->
  sum_trapezoids times values i <= sum_trapezoids times values j.
Proof.
  intros Hasc Hpos Hij Hj. induction Hij as [|j Hij IH]; [lra|].
  simpl. pose proof (sum_trapezoids_nonneg_step times values j Hasc Hpos Hj).
  specialize (IH ltac:(lia)). lra.
Qed.

End IntegratorProperties.

(** X1: on values that are all [c], position [i >= 1] of the integral is
    [c * (times[i] - times[0])], whatever [initial] is. *)
Theorem integral_of_constant (times : list R) (c initial : R) :
  times <> [] ->
  exists r,
    cumulative_trapezoidal_integral times (repeat c (length times)) initial
    = Ok r
    /\ nth 0 r 0 = initial
    /\ forall i, (1 <= i < length times)%nat ->
         nth i r 0 = c * (nth i times 0 - nth 0 times 0).
Proof.
  intros Hne.
  destruct (cumulative_trapezoidal_integral_nth times
              (repeat c (length times)) initial)
    as (r & Hr & _ & H0 & Hnth); [now rewrite repeat_length|exact Hne|].
  exists r. split; [exact Hr|]. split; [exact H0|].
  intros i Hi. rewrite Hnth by exact Hi.
  apply sum_trapezoids_constant. lia.
Qed.

Lemma integral_of_constant_witness :
  exists r,
    cumulative_trapezoidal_integral [0; 1; 3] (repeat 2 (length [0; 1; 3])) 7
    = Ok r
    /\ nth 0 r 0 = 7
    /\ forall i, (1 <= i < length [0; 1; 3])%nat ->
         nth i r 0 = 2 * (nth i [0; 1; 3] 0 - nth 0 [0; 1; 3] 0).
Proof.
  apply (integral_of_constant [0; 1; 3] 2 7). discriminate.
Defined.

(** X2: on ascending times and non-negative values the integral is
    non-negative and non-decreasing from position 1 on (position 0 holds
    [initial] and takes no part in the order). *)
Theorem integral_monotone (times values : list R) (initial : R) :
  length times = length values ->
  times <> [] ->
  (forall k, (S k < length times)%nat ->
             nth k times 0 <= nth (S k) times 0) ->
  (forall k, (k < length times)%nat -> 0 <= nth k values 0) ->
  exists r,
    cumulative_trapezoidal_integral times values initial = Ok r
    /\ forall i j, (1 <= i)%nat -> (i <= j)%nat -> (j < length times)%nat ->
         0 <= nth i r 0 /\ nth i r 0 <= nth j r 0.
Proof.
  intros Hlen Hne Hasc Hpos.
  destruct (cumulative_trapezoidal_integral_nth times values initial Hlen Hne)
    as (r & Hr & _ & _ & Hnth).
  exists r. split; [exact Hr|]. intros i j Hi Hij Hj.
  rewrite !Hnth by lia. split.
  - apply (sum_trapezoids_monotone times values 0 i Hasc Hpos); lia.
  - now apply sum_trapezoids_monotone.
Qed.

Lemma integral_monotone_witness :
  exists r,
    cumulative_trapezoidal_integral [0; 1; 3] [2; 0; 6] 9 = Ok r
    /\ forall i j, (1 <= i)%nat -> (i <= j)%nat ->
                   (j < length [0; 1; 3])%nat ->
         0 <= nth i r 0 /\ nth i r 0 <= nth j r 0.
Proof.
  apply (integral_monotone [0; 1; 3] [2; 0; 6] 9).
  - reflexivity.
  - discriminate.
  - intros [|[|k]] Hk; simpl in *; try lra; lia.
  - intros [|[|[|k]]] Hk; simpl in *; try lra; lia.
Defined.

Section IntegratorShapes.

Lemma diff_cons2 x1 x2 a :
  Np.diff (x1 :: x2 :: a) = (x2 - x1) :: Np.diff (x2 :: a).
Proof. reflexivity. Qed.

Lemma diff_shift d a : Np.diff (map (fun x => x + d) a) = Np.diff a.
Proof.
  induction a as [|x1 a IH]; [reflexivity|].
  destruct a as [|x2 a]; [reflexivity|].
  change (map (fun x => x + d) (x1 :: x2 :: a))
    with ((x1 + d) :: (x2 + d) :: map (fun x => x + d) a).
  rewrite !diff_cons2. f_equal; [ring|]. exact IH.
Qed.

Lemma cumulative_trapezoidal_integral_shift d xdata ydata initial :
  cumulative_trapezoidal_integral (map (fun x => x + d) xdata) ydata initial
  = cumulative_trapezoidal_integral xdata ydata initial.
Proof.
  unfold cumulative_trapezoidal_integral, Np.len.
  now rewrite diff_shift, length_map.
Qed.

Lemma trapezoid_linear times u v a b j :
  length u = length times -> length v = length times ->
  (1 <= j < length times)%nat ->
  trapezoid times (Np.zip_with (fun p q => a * p + b * q) u v) j
  = a * trapezoid times u j + b * trapezoid times v j.
Proof.
  intros Hu Hv Hj. unfold trapezoid.
  rewrite !zip_with_nth by lia. field.
Qed.

Lemma sum_trapezoids_linear times u v a b i :
  length u = length times -> length v = length times ->
  (i < length times)%nat ->
  sum_trapezoids times (Np.zip_with (fun p q => a * p + b * q) u v) i
  = a * sum_trapezoids times u i + b * sum_trapezoids times v i.
Proof.
  intros Hu Hv. induction i as [|i IH]; intros Hi; simpl; [ring|].
  rewrite IH by lia. rewrite trapezoid_linear by (assumption || lia). ring.
Qed.

(** The three outcomes of a binary ufunc on operands of different
    lengths. *)
Lemma ufunc2_stretch_left op a b :
  length a <> length b -> length a = 1%nat ->
  exists r, Np.ufunc2 op a b = Ok r /\ length r = length b.
Proof.
  intros Hne H1. unfold Np.ufunc2.
  destruct (Nat.eqb_spec (length a) (length b)); [contradiction|].
  destruct a as [|x [|? ?]]; try discriminate.
  eexists. split; [reflexivity|]. apply length_map.
Qed.

Lemma ufunc2_stretch_right op a b :
  length a <> length b -> length a <> 1%nat -> length b = 1%nat ->
  exists r, Np.ufunc2 op a b = Ok r /\ length r = length a.
Proof.
  intros Hne Ha Hb. unfold Np.ufunc2.
  destruct (Nat.eqb_spec (length a) (length b)); [contradiction|].
  destruct b as [|y [|? ?]]; try discriminate.
  destruct a as [|x [|? ?]]; try (simpl in Ha; lia);
    (eexists; split; [reflexivity|]; apply length_map).
Qed.

Lemma ufunc2_refused op a b :
  length a <> length b -> length a <> 1%nat -> length b <> 1%nat ->
  exists msg, Np.ufunc2 op a b = Raise (ValueError msg).
Proof.
  intros Hne Ha Hb. unfold Np.ufunc2.
  destruct (Nat.eqb_spec (length a) (length b)); [contradiction|].
  destruct a as [|x [|? ?]]; try (simpl in Ha; lia);
    (destruct b as [|y [|? ?]]; try (simpl in Hb; lia); eauto).
Qed.

Lemma set_from1_fits x a src :
  length src = length a -> Np.set_from1 (x :: a) src = Ok (x :: src).
Proof. intros H. unfold Np.set_from1. now rewrite H, Nat.eqb_refl. Qed.

Lemma set_from1_refused x a src :
  length src <> length a -> length src <> 1%nat ->
  exists msg, Np.set_from1 (x :: a) src = Raise (ValueError msg).
Proof.
  intros Hne H1. unfold Np.set_from1.
  destruct (Nat.eqb_spec (length src) (length a)); [contradiction|].
  destruct src as [|v [|? ?]]; try (simpl in H1; lia); eauto.
Qed.

End IntegratorShapes.

(** X3: the integral is linear in the values: the integral of
    [a * u + b * v] (with [initial = 0]) is, position by position,
    [a] times the integral of [u] plus [b] times the integral of [v]. *)
Theorem integral_linear (times u v : list R) (a b : R) :
  length u = length times ->
  length v = length times ->
  times <> [] ->
  exists ru rv r,
    cumulative_trapezoidal_integral times u 0 = Ok ru
    /\ cumulative_trapezoidal_integral times v 0 = Ok rv
    /\ cumulative_trapezoidal_integral times
         (Np.zip_with (fun p q => a * p + b * q) u v) 0 = Ok r
    /\ length r = length times
    /\ forall i, (i < length times)%nat ->
         nth i r 0 = a * nth i ru 0 + b * nth i rv 0.
Proof.
  intros Hu Hv Hne.
  destruct (cumulative_trapezoidal_integral_nth times u 0)
    as (ru & Hru & _ & Hu0 & Hun); [congruence|exact Hne|].
  destruct (cumulative_trapezoidal_integral_nth times v 0)
    as (rv & Hrv & _ & Hv0 & Hvn); [congruence|exact Hne|].
  destruct (cumulative_trapezoidal_integral_nth times
              (Np.zip_with (fun p q => a * p + b * q) u v) 0)
    as (r & Hr & Hrl & Hr0 & Hrn);
    [rewrite zip_with_length; congruence|exact Hne|].
  exists ru, rv, r. repeat (split; [assumption|]).
  intros [|i] Hi.
  - rewrite Hu0, Hv0, Hr0. ring.
  - rewrite Hun, Hvn, Hrn by lia. now apply sum_trapezoids_linear.
Qed.

Lemma integral_linear_witness :
  exists ru rv r,
    cumulative_trapezoidal_integral [0; 1; 3] [2; 4; 6] 0 = Ok ru
    /\ cumulative_trapezoidal_integral [0; 1; 3] [1; 0; 5] 0 = Ok rv
    /\ cumulative_trapezoidal_integral [0; 1; 3]
         (Np.zip_with (fun p q => 3 * p + 2 * q) [2; 4; 6] [1; 0; 5]) 0
       = Ok r
    /\ length r = length [0; 1; 3]
    /\ forall i, (i < length [0; 1; 3])%nat ->
         nth i r 0 = 3 * nth i ru 0 + 2 * nth i rv 0.
Proof.
  apply (integral_linear [0; 1; 3] [2; 4; 6] [1; 0; 5] 3 2);
    (reflexivity || discriminate).
Defined.

(** X4: the integral depends on the times through their differences
    only: adding one constant [d] to every time changes nothing, for every
    input (errors included). *)
Theorem integral_time_shift (times values : list R) (initial d : R) :
  cumulative_trapezoidal_integral (map (fun x => x + d) times) values initial
  = cumulative_trapezoidal_integral times values initial.
Proof.
  unfold cumulative_trapezoidal_integral, Np.len.
  rewrite diff_shift. rewrite length_map. reflexivity.
Qed.

(** X5: on a non-empty [xdata] the integrator returns exactly when
    [ydata] has the length of [xdata], or has length 2 (its one pair sum is
    then stretched over all intervals), or is empty beside a one-element
    [xdata]; every other length of [ydata] raises [ValueError]. *)
Theorem integral_length_mismatch (xdata ydata : list R) (initial : R) :
  xdata <> [] ->
  (is_ok (cumulative_trapezoidal_integral xdata ydata initial) = true <->
   length ydata = length xdata
   \/ length ydata = 2%nat
   \/ (length xdata = 1%nat /\ length ydata = 0%nat))
  /\ (is_ok (cumulative_trapezoidal_integral xdata ydata initial) = false ->
      exists msg,
        cumulative_trapezoidal_integral xdata ydata initial
        = Raise (ValueError msg)).
Proof.
  intros Hne.
  assert (Hx : exists n, length xdata = S n)
    by (destruct xdata; [contradiction|simpl; eauto]).
  destruct Hx as [n Hn].
  unfold cumulative_trapezoidal_integral, Np.add, Np.mul, Np.len.
  rewrite Hn. cbn [Np.zeros repeat Np.set0 bind].
  rewrite ufunc2_same_length
    by (rewrite from1_length, upto_last_length; reflexivity).
  cbn [bind].
  set (s := Np.zip_with Rplus (Np.from1 ydata) (Np.upto_last ydata)).
  assert (Hs : length s = (length ydata - 1)%nat).
  { unfold s. rewrite zip_with_length; rewrite from1_length; auto.
    now rewrite upto_last_length. }
  assert (Hdx : length (Np.diff xdata) = n) by (rewrite diff_length; lia).
  destruct (Nat.eq_dec (length (Np.diff xdata)) (length s)) as [Heq|Hneq].
  - rewrite ufunc2_same_length by exact Heq. cbn [bind].
    rewrite set_from1_fits.
    2:{ rewrite cumsum_length, div_scalar_length, zip_with_length,
          repeat_length; auto. }
    cbn. split; [|discriminate]. split; [|reflexivity]. intros _. lia.
  - destruct (Nat.eq_dec (length (Np.diff xdata)) 1) as [Hd1|Hd1].
    + destruct (ufunc2_stretch_left Rmult _ _ Hneq Hd1) as (p & -> & Hp).
      cbn [bind].
      destruct (set_from1_refused initial (repeat 0 n)
                  (Np.cumsum (Np.div_scalar p 2))) as (msg & ->).
      * rewrite cumsum_length, div_scalar_length, repeat_length. lia.
      * rewrite cumsum_length, div_scalar_length. lia.
      * cbn. split; [|eauto]. split; [discriminate|]. lia.
    + destruct (Nat.eq_dec (length s) 1) as [Hs1|Hs1].
      * destruct (ufunc2_stretch_right Rmult _ _ Hneq Hd1 Hs1)
          as (p & -> & Hp).
        cbn [bind]. rewrite set_from1_fits.
        2:{ rewrite cumsum_length, div_scalar_length, repeat_length. lia. }
        cbn. split; [|discriminate]. split; [|reflexivity]. intros _. lia.
      * destruct (ufunc2_refused Rmult _ _ Hneq Hd1 Hs1) as (msg & ->).
        cbn. split; [|eauto]. split; [discriminate|]. lia.
Qed.

Lemma integral_length_mismatch_witness :
  (is_ok (cumulative_trapezoidal_integral [0; 1; 3] [2; 4] 0) = true <->
   length [2; 4] = length [0; 1; 3]
   \/ length [2; 4] = 2%nat
   \/ (length [0; 1; 3] = 1%nat /\ length [2; 4] = 0%nat))
  /\ (is_ok (cumulative_trapezoidal_integral [0; 1; 3] [2; 4] 0) = false ->
      exists msg,
        cumulative_trapezoidal_integral [0; 1; 3] [2; 4] 0
        = Raise (ValueError msg)).
Proof.
  apply (integral_length_mismatch [0; 1; 3] [2; 4] 0). discriminate.
Defined.

(** ** Further properties of the threshold locator *)

Section LocatorProperties.

Lemma nth_ascending (times : list R) :
  (forall k, (S k < length times)%nat ->
             nth k times 0 <= nth (S k) times 0) ->
  forall i j, (i <= j)%nat -> (j < length times)%nat ->
              nth i times 0 <= nth j times 0.
Proof.
  intros Hasc i j Hij. induction Hij as [|j Hij IH]; intros Hj; [lra|].
  eapply Rle_trans; [apply IH; lia|apply Hasc; exact Hj].
Qed.

Lemma filter_is_skipn (p : R -> bool) (l : list R) k :
  (k <= length l)%nat ->
  (forall j, (j < k)%nat -> p (nth j l 0) = false) ->
  (forall j, (k <= j < length l)%nat -> p (nth j l 0) = true) ->
  filter p l = skipn k l.
Proof.
  revert k; induction l as [|x l IH]; intros k Hk Hlo Hhi.
  - now destruct k.
  - destruct k as [|k].
    + cbn [skipn]. apply forallb_filter_id. apply forallb_forall.
      intros y Hy. destruct (In_nth _ _ 0 Hy) as (j & Hj & <-).
      apply Hhi. lia.
    + cbn [skipn filter].
      pose proof (Hlo 0%nat ltac:(lia)) as H0. cbn [nth] in H0. rewrite H0.
      apply IH; [simpl in Hk; lia| |].
      * intros j Hj. apply (Hlo (S j)). lia.
      * intros j Hj. apply (Hhi (S j)). simpl. lia.
Qed.

Lemma slice_from_nat {A : Type} (k : nat) (a : list A) :
  (k <= length a)%nat -> Np.slice_from (Z.of_nat k) a = skipn k a.
Proof.
  intros Hk. unfold Np.slice_from, Np.slice_start.
  destruct (Z.ltb_spec (Z.of_nat k) 0); [lia|].
  rewrite Nat2Z.id. now rewrite Nat.min_l.
Qed.

(** A non-negative result of the locator is a found index. *)
Lemma get_index_from_threshold_nat times t k :
  get_index_from_threshold times t = Ok (Z.of_nat k) ->
  (k < length times)%nat
  /\ t <= nth k times 0
  /\ forall j, (j < k)%nat -> nth j times 0 < t.
Proof.
  intros Hget.
  assert (Hne : times <> []) by (intros ->; discriminate Hget).
  destruct (max_spec times Hne) as (m & Hm & Hin & Hub).
  assert (Hex : exists x, In x times /\ t <= x).
  { exists m. split; [exact Hin|].
    unfold get_index_from_threshold in Hget. rewrite Hm in Hget.
    cbn [bind] in Hget. destruct (Rlt_dec m t); [|lra].
    injection Hget as Hget. lia. }
  destruct (get_index_from_threshold_found times t Hex)
    as (k' & Hk' & Hget' & Hnth & Hmin).
  rewrite Hget in Hget'. injection Hget' as Hkk.
  apply Nat2Z.inj in Hkk. subst k'. auto.
Qed.

Lemma fold_left_Rmax_shift d a x :
  fold_left Rmax (map (fun y => y + d) a) (x + d) = fold_left Rmax a x + d.
Proof.
  revert x; induction a as [|y a IH]; intros x; simpl; [reflexivity|].
  replace (Rmax (x + d) (y + d)) with (Rmax x y + d); [apply IH|].
  unfold Rmax. destruct (Rle_dec x y), (Rle_dec (x + d) (y + d)); lra.
Qed.

Lemma ge_scalar_shift d a t :
  Np.ge_scalar (map (fun y => y + d) a) (t + d) = Np.ge_scalar a t.
Proof.
  unfold Np.ge_scalar. rewrite map_map. apply map_ext. intros x.
  destruct (Rle_dec (t + d) (x + d)), (Rle_dec t x); (reflexivity || lra).
Qed.

(** Shifting the times and the threshold together keeps the index. *)
Lemma get_index_from_threshold_shift d times t :
  get_index_from_threshold (map (fun y => y + d) times) (t + d)
  = get_index_from_threshold times t.
Proof.
  unfold get_index_from_threshold. rewrite ge_scalar_shift.
  destruct times as [|x a]; [reflexivity|].
  cbn [map Np.max bind]. rewrite fold_left_Rmax_shift.
  destruct (Rlt_dec (fold_left Rmax a x + d) (t + d)),
    (Rlt_dec (fold_left Rmax a x) t); (reflexivity || lra).
Qed.

End LocatorProperties.

(** X6: on ascending times, a found index [k] splits the samples: every
    sample from [k] on is at or after the threshold, every earlier one is
    before it, and [times[k:]] is exactly the samples at or after the
    threshold. *)
Theorem threshold_window_ascending (times : list R) (t : R) (k : nat) :
  (forall i, (S i < length times)%nat ->
             nth i times 0 <= nth (S i) times 0) ->
  get_index_from_threshold times t = Ok (Z.of_nat k) ->
  (k < length times)%nat
  /\ (forall j, (k <= j < length times)%nat -> t <= nth j times 0)
  /\ (forall j, (j < k)%nat -> nth j times 0 < t)
  /\ Np.slice_from (Z.of_nat k) times
     = filter (fun x => if Rle_dec t x then true else false) times.
Proof.
  intros Hasc Hget.
  destruct (get_index_from_threshold_nat times t k Hget)
    as (Hk & Hnth & Hmin).
  assert (Hhi : forall j, (k <= j < length times)%nat -> t <= nth j times 0).
  { intros j Hj. eapply Rle_trans; [exact Hnth|].
    apply nth_ascending; (assumption || lia). }
  repeat split; auto.
  rewrite slice_from_nat by lia. symmetry. apply filter_is_skipn; [lia| |].
  - intros j Hj. specialize (Hmin j Hj).
    destruct (Rle_dec t (nth j times 0)); [lra|reflexivity].
  - intros j Hj. specialize (Hhi j Hj).
    destruct (Rle_dec t (nth j times 0)); [reflexivity|lra].
Qed.

Lemma threshold_window_ascending_witness :
  (2 < length [0; 1; 2; 3])%nat
  /\ (forall j, (2 <= j < length [0; 1; 2; 3])%nat ->
                1.5 <= nth j [0; 1; 2; 3] 0)
  /\ (forall j, (j < 2)%nat -> nth j [0; 1; 2; 3] 0 < 1.5)
  /\ Np.slice_from (Z.of_nat 2) [0; 1; 2; 3]
     = filter (fun x => if Rle_dec 1.5 x then true else false) [0; 1; 2; 3].
Proof.
  apply (threshold_window_ascending [0; 1; 2; 3] 1.5 2).
  - intros [|[|[|i]]] Hi; simpl in *; try lra; lia.
  - unfold get_index_from_threshold. cbn. unfold Rmax. decide_reals.
    cbn. decide_reals. reflexivity.
Defined.

(** The locator returns an index on every non-empty array. *)
Lemma get_index_from_threshold_total times t :
  times <> [] -> exists idx, get_index_from_threshold times t = Ok idx.
Proof.
  intros Hne. destruct (max_spec times Hne) as (m & Hm & Hin & Hub).
  destruct (Rlt_dec m t) as [Hlt|Hge].
  - exists (-1)%Z. apply get_index_from_threshold_sentinel; [exact Hne|].
    intros x Hx. specialize (Hub x Hx). lra.
  - destruct (get_index_from_threshold_found times t) as (k & _ & Hk & _).
    { exists m. split; [exact Hin|lra]. }
    eauto.
Qed.

(** ** Further properties of the line fitter *)

Section FitterProperties.

Lemma qsum_zero_nth p q u v i :
  length u = length v ->
  qsum p q u v = 0 ->
  (i < length u)%nat ->
  p * nth i u 0 + q * nth i v 0 = 0.
Proof.
  revert v i; induction u as [|x u IH]; intros [|w v] i H H0 Hi;
    simpl in *; try discriminate; try lia.
  pose proof (qsum_nonneg p q u v) as Hq.
  pose proof (Rle_0_sqr (p * x + q * w)) as Hs. unfold Rsqr in Hs.
  assert (Hsq : (p * x + q * w) * (p * x + q * w) = 0) by lra.
  destruct i as [|i].
  - destruct (Rmult_integral _ _ Hsq); assumption.
  - apply IH; [lia|lra|lia].
Qed.

Lemma nth_ones (xdata : list R) i :
  (i < length xdata)%nat -> nth i (map (fun _ => 1) xdata) 0 = 1.
Proof.
  revert i; induction xdata as [|x l IH]; intros [|i] Hi; simpl in *;
    try lia; auto.
  apply IH. lia.
Qed.

Lemma dot_ones_pos (xdata : list R) :
  xdata <> [] ->
  0 < Linalg.dot (map (fun _ => 1) xdata) (map (fun _ => 1) xdata).
Proof.
  destruct xdata as [|x l]; [contradiction|]. intros _. simpl.
  pose proof (dot_self_nonneg (map (fun _ => 1) l)). lra.
Qed.

(** Two distinct abscissas make the system of the fit full rank. *)
Lemma design_full_rank (xdata : list R) i j :
  (i < length xdata)%nat -> (j < length xdata)%nat ->
  nth i xdata 0 <> nth j xdata 0 ->
  Linalg.gram_det (map (fun x => (x, 1)) xdata) <> 0.
Proof.
  intros Hi Hj Hne Hdet. unfold Linalg.gram_det in Hdet.
  destruct (design_matrix_columns xdata) as [C0 C1].
  rewrite C0, C1 in Hdet.
  set (v := map (fun _ => 1) xdata) in *.
  assert (Hlen : length xdata = length v) by (unfold v; now rewrite length_map).
  assert (Hq : qsum (Linalg.dot v v) (- Linalg.dot xdata v) xdata v = 0).
  { rewrite qsum_expand by exact Hlen.
    replace (Linalg.dot v v * Linalg.dot v v * Linalg.dot xdata xdata
             + 2 * Linalg.dot v v * - Linalg.dot xdata v * Linalg.dot xdata v
             + - Linalg.dot xdata v * - Linalg.dot xdata v * Linalg.dot v v)
      with (Linalg.dot v v
            * (Linalg.dot xdata xdata * Linalg.dot v v
               - Linalg.dot xdata v * Linalg.dot xdata v)) by ring.
    rewrite Hdet. ring. }
  pose proof (qsum_zero_nth _ _ _ _ i Hlen Hq Hi) as Ei.
  pose proof (qsum_zero_nth _ _ _ _ j Hlen Hq Hj) as Ej.
  unfold v in Ei, Ej. rewrite nth_ones in Ei, Ej by assumption. fold v in Ei, Ej.
  assert (Hprod : Linalg.dot v v * (nth i xdata 0 - nth j xdata 0) = 0) by lra.
  destruct (Rmult_integral _ _ Hprod) as [H0|H0]; [|lra].
  assert (Hx : xdata <> []) by (intros ->; simpl in Hi; lia).
  pose proof (dot_ones_pos xdata Hx). fold v in H. lra.
Qed.

(** Inner products against data that lie on a line. *)
Lemma dot_line m b u : forall y w,
  length u = length y ->
  (forall i, (i < length u)%nat -> nth i y 0 = m * nth i u 0 + b) ->
  length w = length u ->
  Linalg.dot w y
  = m * Linalg.dot w u + b * Linalg.dot w (map (fun _ => 1) u).
Proof.
  induction u as [|x u IH]; intros [|z y] [|c w] Hy Hline Hw;
    simpl in *; try discriminate; try ring.
  rewrite (IH y w) by (try lia; intros i Hi; apply (Hline (S i)); lia).
  rewrite (Hline 0%nat) by lia. ring.
Qed.

Lemma fit_line_on_line (xdata ydata : list R) (m b : R) i j :
  length xdata = length ydata ->
  (i < length xdata)%nat -> (j < length xdata)%nat ->
  nth i xdata 0 <> nth j xdata 0 ->
  (forall k, (k < length xdata)%nat ->
             nth k ydata 0 = m * nth k xdata 0 + b) ->
  fit_line_to_data_using_lls xdata ydata = Ok (m, b).
Proof.
  intros Hlen Hi Hj Hne Hline.
  rewrite fit_line_eq
    by (try exact Hlen; intros ->; simpl in Hi; lia).
  pose proof (design_full_rank xdata i j Hi Hj Hne) as Hdet.
  unfold Linalg.solve2.
  destruct (Req_dec_T _ 0) as [H0|_]; [contradiction|].
  unfold Linalg.gram_det in *.
  destruct (design_matrix_columns xdata) as [C0 C1].
  rewrite C0, C1 in *.
  set (v := map (fun _ => 1) xdata) in *.
  assert (Hv : length v = length xdata) by (unfold v; now rewrite length_map).
  rewrite (dot_line m b xdata ydata xdata Hlen Hline eq_refl).
  rewrite (dot_line m b xdata ydata v Hlen Hline Hv).
  fold v. rewrite (dot_comm v xdata).
  do 2 f_equal; field; exact Hdet.
Qed.

End FitterProperties.

(** X9: data that lie on a line are fitted exactly: when
    [ydata[k] = m * xdata[k] + b] at every position and [xdata] holds two
    different values, the fitter returns [(m, b)]. *)
Theorem fit_line_recovers_line (xdata ydata : list R) (m b : R) :
  length xdata = length ydata ->
  (exists i j, (i < length xdata)%nat /\ (j < length xdata)%nat
               /\ nth i xdata 0 <> nth j xdata 0) ->
  (forall k, (k < length xdata)%nat ->
             nth k ydata 0 = m * nth k xdata 0 + b) ->
  fit_line_to_data_using_lls xdata ydata = Ok (m, b).
Proof.
  intros Hlen (i & j & Hi & Hj & Hne) Hline.
  now apply (fit_line_on_line xdata ydata m b i j).
Qed.

Lemma fit_line_recovers_line_witness :
  fit_line_to_data_using_lls [0; 2; 5] [1; 7; 16] = Ok (3, 1).
Proof.
  apply (fit_line_recovers_line [0; 2; 5] [1; 7; 16] 3 1).
  - reflexivity.
  - exists 0%nat, 1%nat. simpl. repeat split; try lia. lra.
  - intros [|[|[|k]]] Hk; simpl in *; try lra; lia.
Defined.

(** ** Further properties of the method transforms *)

Section TransformProperties.

Lemma slice_from_tabulate (k : nat) f n :
  (k <= n)%nat ->
  Np.slice_from (Z.of_nat k) (tabulate f n)
  = tabulate (fun i => f (k + i)%nat) (n - k).
Proof.
  intros Hk. rewrite slice_from_nat by (now rewrite tabulate_length).
  apply (nth_ext _ _ 0 0).
  - now rewrite length_skipn, !tabulate_length.
  - intros i Hi. rewrite length_skipn, tabulate_length in Hi.
    rewrite nth_skipn, !tabulate_nth by lia. reflexivity.
Qed.

(** Coordinates on a line over the fit window give that line. *)
Lemma tabulated_transform_on_line (m : method) inp reg times t (k : nat) a b :
  get_index_from_threshold times t = Ok (Z.of_nat k) ->
  (forall i, (k <= i < length times)%nat ->
             spec_y m inp reg times i = a * spec_x m inp reg times i + b) ->
  (exists i j, (k <= i < length times)%nat /\ (k <= j < length times)%nat
               /\ spec_x m inp reg times i <> spec_x m inp reg times j) ->
  tabulated_transform m inp reg times t = Ok (a, b).
Proof.
  intros Hget Hline (i & j & Hi & Hj & Hne).
  destruct (get_index_from_threshold_nat times t k Hget) as (Hk & _).
  unfold tabulated_transform. rewrite Hget. cbn [bind].
  rewrite !slice_from_tabulate by lia.
  apply (fit_line_on_line _ _ a b (i - k) (j - k)).
  - now rewrite !tabulate_length.
  - rewrite tabulate_length. lia.
  - rewrite tabulate_length. lia.
  - rewrite !tabulate_nth by lia.
    replace (k + (i - k))%nat with i by lia.
    replace (k + (j - k))%nat with j by lia. exact Hne.
  - intros p Hp. rewrite tabulate_length in Hp.
    rewrite !tabulate_nth by lia. apply Hline. lia.
Qed.

(** The integral the program computes, read at a position. *)
Lemma cumulative_integral_read times values ci i :
  length values = length times ->
  cumulative_trapezoidal_integral times values 0 = Ok ci ->
  (i < length times)%nat ->
  nth i ci 0 = spec_cumulative_integral times values 0 i.
Proof.
  intros Hlen Hci Hi.
  assert (Hne : times <> []) by (intros ->; simpl in Hi; lia).
  rewrite cumulative_integral_tabulate in Hci by assumption.
  injection Hci as <-. now apply tabulate_nth.
Qed.

Lemma nth_scale c l j : nth j (map (Rmult c) l) 0 = c * nth j l 0.
Proof.
  revert j; induction l as [|x l IH]; intros [|j]; simpl; try ring; auto.
Qed.

Lemma scale_ratio c a b : c <> 0 -> (c * a) / (c * b) = a / b.
Proof.
  intros Hc. unfold Rdiv. rewrite Rinv_mult.
  replace (c * a * (/ c * / b)) with (c * / c * (a * / b)) by ring.
  rewrite Rinv_r by exact Hc. ring.
Qed.

Lemma spec_cumulative_integral_scale c times values i :
  spec_cumulative_integral times (map (Rmult c) values) 0 i
  = c * spec_cumulative_integral times values 0 i.
Proof.
  induction i as [|i IH]; simpl; [ring|]. rewrite IH.
  unfold trapezoid. rewrite !nth_scale. field.
Qed.

Lemma spec_coordinates_scale c m inp reg times i :
  c <> 0 ->
  spec_x m (map (Rmult c) inp) (map (Rmult c) reg) times i
  = spec_x m inp reg times i
  /\ spec_y m (map (Rmult c) inp) (map (Rmult c) reg) times i
     = spec_y m inp reg times i.
Proof.
  intros Hc. unfold spec_x, spec_y.
  destruct m; rewrite ?spec_cumulative_integral_scale, ?nth_scale;
    split; now apply scale_ratio.
Qed.

Lemma tabulated_transform_scale c m inp reg times t :
  c <> 0 ->
  tabulated_transform m (map (Rmult c) inp) (map (Rmult c) reg) times t
  = tabulated_transform m inp reg times t.
Proof.
  intros Hc. unfold tabulated_transform.
  destruct (get_index_from_threshold times t) as [idx|e]; [|reflexivity].
  cbn [bind].
  rewrite (tabulate_ext_in
             (spec_x m (map (Rmult c) inp) (map (Rmult c) reg) times)
             (spec_x m inp reg times))
    by (intros i _; now apply spec_coordinates_scale).
  rewrite (tabulate_ext_in
             (spec_y m (map (Rmult c) inp) (map (Rmult c) reg) times)
             (spec_y m inp reg times))
    by (intros i _; now apply spec_coordinates_scale).
  reflexivity.
Qed.

End TransformProperties.

(** X10: Patlak analysis recovers the line of the Patlak model: when, on
    the fit window, the input values are not zero, the region values are
    [K * integral(input) + V * input], and the abscissas
    [integral(input) / input] take two different values, the result is
    [(K, V)]. *)
Theorem patlak_recovers_model (inp reg times ci : list R) (t K V : R)
  (k : nat) :
  length inp = length times ->
  length reg = length times ->
  get_index_from_threshold times t = Ok (Z.of_nat k) ->
  cumulative_trapezoidal_integral times inp 0 = Ok ci ->
  (forall i, (k <= i < length times)%nat ->
             nth i inp 0 <> 0
             /\ nth i reg 0 = K * nth i ci 0 + V * nth i inp 0) ->
  (exists i j, (k <= i < length times)%nat /\ (k <= j < length times)%nat
               /\ nth i ci 0 / nth i inp 0 <> nth j ci 0 / nth j inp 0) ->
  patlak_analysis inp reg times t = Ok (K, V).
Proof.
  intros Hi Hr Hget Hci Hmodel (i & j & Hwi & Hwj & Hne).
  rewrite patlak_analysis_spec by assumption.
  apply (tabulated_transform_on_line Patlak inp reg times t k K V Hget).
  - intros p Hp. destruct (Hmodel p Hp) as [Hnz Hreg].
    unfold spec_y, spec_x.
    rewrite <- (cumulative_integral_read times inp ci p Hi Hci) by lia.
    rewrite Hreg. field. exact Hnz.
  - exists i, j. repeat split; try lia. unfold spec_x.
    rewrite <- !(cumulative_integral_read times inp ci _ Hi Hci) by lia.
    exact Hne.
Qed.

(** X11: Logan analysis recovers the line of the Logan model: when, on the
    fit window, the region values are not zero,
    [integral(region) = Vd * integral(input) + c * region], and the
    abscissas [integral(input) / region] take two different values, the
    result is [(Vd, c)]. *)
Theorem logan_recovers_model (inp reg times ci cr : list R) (t Vd c : R)
  (k : nat) :
  length inp = length times ->
  length reg = length times ->
  get_index_from_threshold times t = Ok (Z.of_nat k) ->
  cumulative_trapezoidal_integral times inp 0 = Ok ci ->
  cumulative_trapezoidal_integral times reg 0 = Ok cr ->
  (forall i, (k <= i < length times)%nat ->
             nth i reg 0 <> 0
             /\ nth i cr 0 = Vd * nth i ci 0 + c * nth i reg 0) ->
  (exists i j, (k <= i < length times)%nat /\ (k <= j < length times)%nat
               /\ nth i ci 0 / nth i reg 0 <> nth j ci 0 / nth j reg 0) ->
  logan_analysis inp reg times t = Ok (Vd, c).
Proof.
  intros Hi Hr Hget Hci Hcr Hmodel (i & j & Hwi & Hwj & Hne).
  rewrite logan_analysis_spec by assumption.
  apply (tabulated_transform_on_line Logan inp reg times t k Vd c Hget).
  - intros p Hp. destruct (Hmodel p Hp) as [Hnz Hint].
    unfold spec_y, spec_x.
    rewrite <- (cumulative_integral_read times inp ci p Hi Hci) by lia.
    rewrite <- (cumulative_integral_read times reg cr p Hr Hcr) by lia.
    rewrite Hint. field. exact Hnz.
  - exists i, j. repeat split; try lia. unfold spec_x.
    rewrite <- !(cumulative_integral_read times inp ci _ Hi Hci) by lia.
    exact Hne.
Qed.

(** Evaluates the locator and the integrator on concrete reals. *)
Ltac eval_locator :=
  unfold get_index_from_threshold; cbn; unfold Rmax; decide_reals;
  cbn; decide_reals; reflexivity.

Ltac eval_integral :=
  rewrite cumulative_trapezoidal_integral_eq by (reflexivity || discriminate);
  cbn; repeat f_equal; lra.

Lemma patlak_recovers_model_witness :
  patlak_analysis [1; 1; 1] [3; 5; 7] [0; 1; 2] 1 = Ok (2, 3).
Proof.
  apply (patlak_recovers_model [1; 1; 1] [3; 5; 7] [0; 1; 2] [0; 1; 2]
           1 2 3 1).
  - reflexivity.
  - reflexivity.
  - eval_locator.
  - eval_integral.
  - intros [|[|[|i]]] Hi; simpl in *; try lia; split; lra.
  - exists 1%nat, 2%nat. simpl. repeat split; try lia. lra.
Defined.

Lemma logan_recovers_model_witness :
  logan_analysis [1; 3; 5] [1; 1; 1] [0; 1; 2] 1 = Ok (1 / 4, 1 / 2).
Proof.
  apply (logan_recovers_model [1; 3; 5] [1; 1; 1] [0; 1; 2]
           [0; 2; 6] [0; 1; 2] 1 (1 / 4) (1 / 2) 1).
  - reflexivity.
  - reflexivity.
  - eval_locator.
  - eval_integral.
  - eval_integral.
  - intros [|[|[|i]]] Hi; simpl in *; try lia; split; lra.
  - exists 1%nat, 2%nat. simpl. repeat split; try lia. lra.
Defined.

(** X13: the three analyses do not depend on the unit of activity:
    multiplying the input and the region values by one constant [c <> 0]
    leaves each result unchanged. *)
Theorem analyses_scale_invariant (inp reg times : list R) (t c : R) :
  c <> 0 ->
  length inp = length times ->
  length reg = length times ->
  patlak_analysis (map (Rmult c) inp) (map (Rmult c) reg) times t
  = patlak_analysis inp reg times t
  /\ logan_analysis (map (Rmult c) inp) (map (Rmult c) reg) times t
     = logan_analysis inp reg times t
  /\ alternative_logan_analysis (map (Rmult c) inp) (map (Rmult c) reg)
       times t
     = alternative_logan_analysis inp reg times t.
Proof.
  intros Hc Hi Hr.
  rewrite !patlak_analysis_spec, !logan_analysis_spec,
    !alternative_logan_analysis_spec by (rewrite ?length_map; assumption).
  repeat split; now apply tabulated_transform_scale.
Qed.

Lemma analyses_scale_invariant_witness :
  patlak_analysis (map (Rmult 10) [1; 3; 5]) (map (Rmult 10) [3; 5; 7])
    [0; 1; 2] 1
  = patlak_analysis [1; 3; 5] [3; 5; 7] [0; 1; 2] 1
  /\ logan_analysis (map (Rmult 10) [1; 3; 5]) (map (Rmult 10) [3; 5; 7])
       [0; 1; 2] 1
     = logan_analysis [1; 3; 5] [3; 5; 7] [0; 1; 2] 1
  /\ alternative_logan_analysis (map (Rmult 10) [1; 3; 5])
       (map (Rmult 10) [3; 5; 7]) [0; 1; 2] 1
     = alternative_logan_analysis [1; 3; 5] [3; 5; 7] [0; 1; 2] 1.
Proof.
  apply (analyses_scale_invariant [1; 3; 5] [3; 5; 7] [0; 1; 2] 1 10);
    [lra|reflexivity|reflexivity].
Defined.

(** X14: the three analyses depend on the times through their differences
    only: adding one constant [d] to every time and to the threshold leaves
    each result unchanged, for every input (errors included). *)
Theorem analyses_time_shift_invariant (inp reg times : list R) (t d : R) :
  patlak_analysis inp reg (map (fun x => x + d) times) (t + d)
  = patlak_analysis inp reg times t
  /\ logan_analysis inp reg (map (fun x => x + d) times) (t + d)
     = logan_analysis inp reg times t
  /\ alternative_logan_analysis inp reg (map (fun x => x + d) times) (t + d)
     = alternative_logan_analysis inp reg times t.
Proof.
  unfold patlak_analysis, logan_analysis, alternative_logan_analysis,
    calculate_patlak_x.
  rewrite !get_index_from_threshold_shift,
    !cumulative_trapezoidal_integral_shift.
  repeat split.
Qed.

(** X15: for a constant, non-zero input the Patlak abscissa is the elapsed
    time: position [i] of [calculate_patlak_x] is [times[i] - times[0]]. *)
Theorem patlak_x_of_constant_input (times : list R) (c : R) :
  times <> [] ->
  c <> 0 ->
  exists x,
    calculate_patlak_x times (repeat c (length times)) = Ok x
    /\ length x = length times
    /\ forall i, (i < length times)%nat ->
         nth i x 0 = nth i times 0 - nth 0 times 0.
Proof.
  intros Hne Hc. unfold calculate_patlak_x.
  destruct (cumulative_trapezoidal_integral_nth times
              (repeat c (length times)) 0)
    as (ci & -> & Hlen & H0 & Hnth); [now rewrite repeat_length|exact Hne|].
  cbn [bind].
  rewrite (div_tabulate ci _ (length times))
    by (assumption || apply repeat_length).
  eexists. split; [reflexivity|]. split; [apply tabulate_length|].
  intros i Hi. rewrite tabulate_nth by exact Hi.
  rewrite nth_repeat_lt by exact Hi.
  destruct i as [|i].
  - rewrite H0. field. exact Hc.
  - rewrite Hnth by lia. rewrite sum_trapezoids_constant by exact Hi.
    field. exact Hc.
Qed.

Lemma patlak_x_of_constant_input_witness :
  exists x,
    calculate_patlak_x [1; 2; 5] (repeat 4 (length [1; 2; 5])) = Ok x
    /\ length x = length [1; 2; 5]
    /\ forall i, (i < length [1; 2; 5])%nat ->
         nth i x 0 = nth i [1; 2; 5] 0 - nth 0 [1; 2; 5] 0.
Proof.
  apply (patlak_x_of_constant_input [1; 2; 5] 4); [discriminate|lra].
Defined.

(** ** The analysis object *)

Section AnalysisObject.

Variable abspath : string -> string.
Variables a b c d : string.

(** The items of [analysis_props] when the method name and the threshold
    hold [m] and [th]. *)
Let props_with (m th : pyval) : dict :=
  [("FilePathPTAC"%string, PyStr (abspath a));
   ("FilePathTTAC"%string, PyStr (abspath b));
   ("MethodName"%string, m);
   ("ThresholdTime"%string, th);
   ("StartFrameTime"%string, PyNone);
   ("EndFrameTime"%string, PyNone);
   ("NumberOfPointsFit"%string, PyNone)].

Lemma run_analysis_on_props self m th method_name t :
  analysis_props self = props_with m th ->
  analysis_props (run_analysis self method_name t)
  = props_with (PyStr method_name) (PyFloat t).
Proof. intros H. unfold run_analysis. cbn. rewrite H. reflexivity. Qed.

Lemma run_analyses_snoc self calls call :
  run_analyses self (calls ++ [call])
  = run_analysis (run_analyses self calls) (fst call) (snd call).
Proof. unfold run_analyses. now rewrite fold_left_app. Qed.

Lemma run_analyses_paths self calls :
  input_tac_path (run_analyses self calls) = input_tac_path self
  /\ roi_tac_path (run_analyses self calls) = roi_tac_path self
  /\ output_directory (run_analyses self calls) = output_directory self
  /\ output_filename_prefix (run_analyses self calls)
     = output_filename_prefix self.
Proof.
  induction calls as [|call calls IH] using rev_ind; [now cbn|].
  rewrite run_analyses_snoc. exact IH.
Qed.

Lemma run_analyses_props calls :
  analysis_props (run_analyses (GraphicalAnalysis_init abspath a b c d) calls)
  = match rev calls with
    | [] => props_with PyNone PyNone
    | (method_name, t) :: _ => props_with (PyStr method_name) (PyFloat t)
    end.
Proof.
  induction calls as [|[method_name t] calls IH] using rev_ind;
    [reflexivity|].
  rewrite run_analyses_snoc, rev_app_distr. cbn [rev app fst snd].
  destruct (rev calls) as [|[m0 t0] ?];
    eapply run_analysis_on_props; exact IH.
Qed.

End AnalysisObject.

(** X16: after any sequence of calls of [run_analysis] on a fresh object,
    the four attributes are the ones the constructor set, and
    [analysis_props] holds the seven initial keys in their order, with the
    two file paths, with the method name and the threshold of the last call
    (or [None] before any call) and with [None] under the three other keys.
    The method name is recorded as given, whatever string it is. *)
Theorem run_analysis_last_call_wins (abspath : string -> string)
  (a b c d : string) (calls : list (string * R)) :
  let obj := run_analyses (GraphicalAnalysis_init abspath a b c d) calls in
  let last_call :=
    match rev calls with
    | [] => (PyNone, PyNone)
    | (method_name, t) :: _ => (PyStr method_name, PyFloat t)
    end in
  input_tac_path obj = abspath a
  /\ roi_tac_path obj = abspath b
  /\ output_directory obj = abspath c
  /\ output_filename_prefix obj = d
  /\ analysis_props obj
     = [("FilePathPTAC"%string, PyStr (abspath a));
        ("FilePathTTAC"%string, PyStr (abspath b));
        ("MethodName"%string, fst last_call);
        ("ThresholdTime"%string, snd last_call);
        ("StartFrameTime"%string, PyNone);
        ("EndFrameTime"%string, PyNone);
        ("NumberOfPointsFit"%string, PyNone)].
Proof.
  cbv zeta.
  destruct (run_analyses_paths (GraphicalAnalysis_init abspath a b c d) calls)
    as (H1 & H2 & H3 & H4).
  repeat (split; [assumption|]).
  rewrite run_analyses_props. now destruct (rev calls) as [|[m t] ?].
Qed.

(** ** The image-derived input function *)

(** X18: start times and durations of different lengths are refused with
    [ValueError], unless one of the two arrays has exactly one element (it
    is then stretched over the other). *)
Theorem frame_midpoints_shapes (starts durations : list R) :
  length starts <> length durations ->
  (length starts <> 1%nat -> length durations <> 1%nat ->
   exists msg,
     Idif.get_frame_time_midpoints starts durations = Raise (ValueError msg))
  /\ (length starts = 1%nat ->
      exists mids,
        Idif.get_frame_time_midpoints starts durations = Ok mids
        /\ length mids = length durations)
  /\ (length starts <> 1%nat -> length durations = 1%nat ->
      exists mids,
        Idif.get_frame_time_midpoints starts durations = Ok mids
        /\ length mids = length starts).
Proof.
  intros Hne. unfold Idif.get_frame_time_midpoints, Np.add.
  assert (Hne' : length starts <> length (Np.div_scalar durations 2))
    by (now rewrite div_scalar_length).
  split; [|split].
  - intros Hs Hd.
    destruct (ufunc2_refused Rplus starts (Np.div_scalar durations 2))
      as (msg & ->); rewrite ?div_scalar_length; auto.
    cbn. eauto.
  - intros Hs.
    destruct (ufunc2_stretch_left Rplus starts (Np.div_scalar durations 2))
      as (r & -> & Hr); auto.
    cbn [bind]. eexists. split; [reflexivity|].
    now rewrite length_map, Hr, div_scalar_length.
  - intros Hs Hd.
    destruct (ufunc2_stretch_right Rplus starts (Np.div_scalar durations 2))
      as (r & -> & Hr); rewrite ?div_scalar_length; auto.
    cbn [bind]. eexists. split; [reflexivity|].
    now rewrite length_map, Hr.
Qed.

Lemma frame_midpoints_shapes_witness :
  exists msg,
    Idif.get_frame_time_midpoints [0; 5; 10] [5; 5] = Raise (ValueError msg).
Proof.
  apply (proj1 (frame_midpoints_shapes [0; 5; 10] [5; 5] ltac:(simpl; lia)));
    simpl; lia.
Defined.

Section Masks.

Lemma shape_eqb_eq s1 s2 : Idif.shape_eqb s1 s2 = true <-> s1 = s2.
Proof.
  unfold Idif.shape_eqb.
  destruct (list_eq_dec Nat.eq_dec s1 s2); split; (congruence || auto).
Qed.

Lemma crop_same_shape (a m : ndarray R) :
  shape a = shape m ->
  Idif.crop_by_input_function_mask a m
  = Ok (mkArray (shape a) (Np.zip_with Rmult (data a) (data m))).
Proof.
  intros H. unfold Idif.crop_by_input_function_mask.
  now rewrite (proj2 (shape_eqb_eq _ _) H).
Qed.

End Masks.

(** X20: cropping raises [ValueError] exactly when the two shapes differ.
    On well-formed arrays of one shape it returns a well-formed array of
    that shape holding the products; with a mask of zeros and ones every
    element is the image value or zero, and cropping a second time with
    the same mask changes nothing. *)
Theorem crop_by_mask_contract (a m : ndarray R) :
  (shape a <> shape m ->
   Idif.crop_by_input_function_mask a m
   = Raise (ValueError "array1 and array2 must have the same shape."))
  /\ (shape a = shape m -> well_formed a -> well_formed m ->
      exists r,
        Idif.crop_by_input_function_mask a m = Ok r
        /\ shape r = shape a
        /\ well_formed r
        /\ (forall i, (i < length (data a))%nat ->
              nth i (data r) 0 = nth i (data a) 0 * nth i (data m) 0)
        /\ ((forall i, (i < length (data m))%nat ->
               nth i (data m) 0 = 0 \/ nth i (data m) 0 = 1) ->
            Idif.crop_by_input_function_mask r m = Ok r)).
Proof.
  split.
  - intros H. unfold Idif.crop_by_input_function_mask.
    destruct (Idif.shape_eqb (shape a) (shape m)) eqn:E; [|reflexivity].
    apply shape_eqb_eq in E. contradiction.
  - intros Hs Ha Hm. unfold well_formed in *.
    assert (Hlen : length (data a) = length (data m)) by congruence.
    rewrite crop_same_shape by exact Hs.
    eexists. split; [reflexivity|]. cbn [shape data].
    split; [reflexivity|].
    split; [unfold well_formed; cbn [shape data];
            rewrite zip_with_length; assumption|].
    split; [intros i Hi; now apply zip_with_nth|].
    intros Hbin. rewrite crop_same_shape by exact Hs. cbn [shape data].
    do 2 f_equal. apply (nth_ext _ _ 0 0).
    + rewrite !zip_with_length; rewrite ?zip_with_length; auto.
    + intros i Hi.
      rewrite !zip_with_length in Hi by (rewrite ?zip_with_length; auto).
      rewrite zip_with_nth by (rewrite ?zip_with_length; auto).
      rewrite zip_with_nth by assumption.
      destruct (Hbin i ltac:(lia)) as [-> | ->]; ring.
Qed.

Lemma crop_by_mask_contract_witness :
  Idif.crop_by_input_function_mask (mkArray [2; 2]%nat [0; 3; 1; 5])
    (mkArray [4]%nat [0; 1; 1; 0])
  = Raise (ValueError "array1 and array2 must have the same shape.")
  /\ exists r,
      Idif.crop_by_input_function_mask (mkArray [2; 2]%nat [0; 3; 1; 5])
        (mkArray [2; 2]%nat [0; 1; 1; 0]) = Ok r
      /\ shape r = [2; 2]%nat.
Proof.
  split.
  - apply (proj1 (crop_by_mask_contract (mkArray [2; 2]%nat [0; 3; 1; 5])
                    (mkArray [4]%nat [0; 1; 1; 0]))).
    discriminate.
  - destruct (proj2 (crop_by_mask_contract (mkArray [2; 2]%nat [0; 3; 1; 5])
                       (mkArray [2; 2]%nat [0; 1; 1; 0]))
                eq_refl eq_refl eq_refl) as (r & Hr & Hs & _).
    exists r. split; assumption.
Defined.

Section EarlyMean.

Lemma slice_start_in_range (k : Z) (n : nat) :
  (0 <= k <= Z.of_nat n)%Z -> Np.slice_start k n = Z.to_nat k.
Proof.
  intros H. unfold Np.slice_start.
  destruct (Z.ltb_spec k 0); [lia|]. lia.
Qed.

Lemma sum_frames_between elements V v lo count m M :
  (forall f, (lo <= f < lo + count)%nat ->
             m <= nth (f * V + v) elements 0 <= M) ->
  INR count * m <= Idif.sum_frames elements V v lo count <= INR count * M.
Proof.
  revert lo; induction count as [|c IH]; intros lo H.
  - simpl. lra.
  - cbn [Idif.sum_frames]. rewrite S_INR.
    specialize (IH (S lo) ltac:(intros f Hf; apply H; lia)).
    specialize (H lo ltac:(lia)). lra.
Qed.

Lemma early_mean_check_passed pet frames frame_shape start_frame end_frame :
  shape pet = frames :: frame_shape ->
  (0 <= start_frame)%Z -> (end_frame < Z.of_nat frames)%Z ->
  Idif.make_early_mean_image_from_4d_pet pet start_frame end_frame
  = match (Np.slice_start (end_frame + 1) frames
           - Np.slice_start start_frame frames)%nat with
    | O => Ok (Idif.MeanOfNoFrame frame_shape)
    | S c =>
        Ok (Idif.Mean
              (mkArray frame_shape
                 (tabulate
                    (fun v =>
                       Idif.sum_frames (data pet) (Idif.size_of frame_shape)
                         v (Np.slice_start start_frame frames) (S c)
                       / INR (S c))
                    (Idif.size_of frame_shape))))
    end.
Proof.
  intros Hs H0 H1. unfold Idif.make_early_mean_image_from_4d_pet.
  rewrite Hs.
  destruct (Z.ltb_spec start_frame 0); [lia|].
  destruct (Z.geb_spec end_frame (Z.of_nat frames)); [lia|].
  cbn [orb].
  destruct (Np.slice_start (end_frame + 1) frames
            - Np.slice_start start_frame frames)%nat; reflexivity.
Qed.

End EarlyMean.

(** X22: the frame check of the early mean image.  On an array with
    [frames] frames the call raises [ValueError] exactly when
    [start_frame < 0] or [end_frame >= frames]; in particular the default
    window 3..7 is accepted exactly when there are at least 8 frames. *)
Theorem early_mean_frame_check (pet : ndarray R) (frames : nat)
  (frame_shape : list nat) (start_frame end_frame : Z) :
  shape pet = frames :: frame_shape ->
  ((start_frame < 0)%Z \/ (Z.of_nat frames <= end_frame)%Z ->
   Idif.make_early_mean_image_from_4d_pet pet start_frame end_frame
   = Raise (ValueError "Frame indices are out of bounds."))
  /\ ((0 <= start_frame)%Z /\ (end_frame < Z.of_nat frames)%Z ->
      is_ok (Idif.make_early_mean_image_from_4d_pet pet start_frame
               end_frame) = true)
  /\ (is_ok (Idif.make_early_mean_image_from_4d_pet pet 3 7) = true
      <-> (8 <= frames)%nat).
Proof.
  intros Hs.
  assert (Hok : forall s e, (0 <= s)%Z -> (e < Z.of_nat frames)%Z ->
                  is_ok (Idif.make_early_mean_image_from_4d_pet pet s e)
                  = true).
  { intros s e H0 H1.
    rewrite (early_mean_check_passed pet frames frame_shape s e Hs H0 H1).
    now destruct (_ - _)%nat. }
  assert (Hbad : forall s e, (s < 0)%Z \/ (Z.of_nat frames <= e)%Z ->
                   Idif.make_early_mean_image_from_4d_pet pet s e
                   = Raise (ValueError "Frame indices are out of bounds.")).
  { intros s e H. unfold Idif.make_early_mean_image_from_4d_pet. rewrite Hs.
    destruct (Z.ltb_spec s 0); [reflexivity|].
    destruct (Z.geb_spec e (Z.of_nat frames)); [reflexivity|]. lia. }
  split; [apply Hbad|]. split; [intros [H0 H1]; now apply Hok|].
  split.
  - intros H. destruct (Nat.le_gt_cases 8 frames) as [|Hlt]; [assumption|].
    rewrite Hbad in H by lia. discriminate.
  - intros H. apply Hok; lia.
Qed.

Lemma early_mean_frame_check_witness :
  is_ok (Idif.make_early_mean_image_from_4d_pet
           (mkArray [2; 1; 1; 2]%nat [1; 2; 3; 4]) 0 1) = true
  /\ Idif.make_early_mean_image_from_4d_pet
       (mkArray [2; 1; 1; 2]%nat [1; 2; 3; 4]) 0 2
     = Raise (ValueError "Frame indices are out of bounds.").
Proof.
  split.
  - apply (proj1 (proj2 (early_mean_frame_check
                           (mkArray [2; 1; 1; 2]%nat [1; 2; 3; 4]) 2
                           [1; 1; 2]%nat 0 1 eq_refl))).
    simpl. lia.
  - apply (proj1 (early_mean_frame_check
                    (mkArray [2; 1; 1; 2]%nat [1; 2; 3; 4]) 2
                    [1; 1; 2]%nat 0 2 eq_refl)).
    simpl. lia.
Defined.

(** X23: for [0 <= start_frame <= end_frame < frames] the early mean is an
    image of the shape of one frame, and each of its elements lies between
    any two bounds that hold for that element in every frame of the window
    [start_frame .. end_frame] (both ends included); so frames that agree
    at an element give that value. *)
Theorem early_mean_between_frames (pet : ndarray R) (frames : nat)
  (frame_shape : list nat) (start_frame end_frame : nat) :
  shape pet = frames :: frame_shape ->
  (start_frame <= end_frame)%nat -> (end_frame < frames)%nat ->
  exists image,
    Idif.make_early_mean_image_from_4d_pet pet (Z.of_nat start_frame)
      (Z.of_nat end_frame) = Ok (Idif.Mean image)
    /\ shape image = frame_shape
    /\ well_formed image
    /\ forall v lo hi, (v < Idif.size_of frame_shape)%nat ->
         (forall f, (start_frame <= f <= end_frame)%nat ->
                    lo <= nth (f * Idif.size_of frame_shape + v) (data pet) 0
                    <= hi) ->
         lo <= nth v (data image) 0 <= hi.
Proof.
  intros Hs Hse He.
  rewrite (early_mean_check_passed pet frames frame_shape _ _ Hs) by lia.
  rewrite !slice_start_in_range by lia.
  replace (Z.to_nat (Z.of_nat end_frame + 1) - Z.to_nat (Z.of_nat start_frame))%nat
    with (S (end_frame - start_frame)) by lia.
  rewrite Nat2Z.id.
  eexists. split; [reflexivity|]. cbn [shape data].
  split; [reflexivity|].
  split; [unfold well_formed; cbn [shape data]; apply tabulate_length|].
  intros v lo hi Hv Hb. rewrite tabulate_nth by exact Hv.
  pose proof (sum_frames_between (data pet) (Idif.size_of frame_shape) v
                start_frame (S (end_frame - start_frame)) lo hi) as Hsum.
  specialize (Hsum ltac:(intros f Hf; apply Hb; lia)).
  assert (Hc : 0 < INR (S (end_frame - start_frame)))
    by (apply lt_0_INR; lia).
  set (n := INR (S (end_frame - start_frame))) in *.
  set (s := Idif.sum_frames _ _ _ _ _) in *.
  split.
  - apply (Rmult_le_reg_r n); [exact Hc|].
    replace (s / n * n) with s by (field; lra). lra.
  - apply (Rmult_le_reg_r n); [exact Hc|].
    replace (s / n * n) with s by (field; lra). lra.
Qed.

Lemma early_mean_between_frames_witness :
  exists image,
    Idif.make_early_mean_image_from_4d_pet
      (mkArray [2; 1; 1; 2]%nat [1; 2; 3; 4]) (Z.of_nat 0) (Z.of_nat 1)
    = Ok (Idif.Mean image)
    /\ shape image = [1; 1; 2]%nat.
Proof.
  destruct (early_mean_between_frames
              (mkArray [2; 1; 1; 2]%nat [1; 2; 3; 4]) 2 [1; 1; 2]%nat 0 1
              eq_refl ltac:(lia) ltac:(lia)) as (image & H & Hshape & _).
  exists image. split; assumption.
Defined.

(** X24: the frame check does not compare the two indices: a call with
    [0 <= start_frame], [-1 <= end_frame < start_frame] and
    [end_frame < frames] is accepted, and its mean is taken over no frame
    (an image of NaN in the program). *)
Theorem early_mean_empty_window (pet : ndarray R) (frames : nat)
  (frame_shape : list nat) (start_frame end_frame : Z) :
  shape pet = frames :: frame_shape ->
  (0 <= start_frame)%Z ->
  (-1 <= end_frame < start_frame)%Z ->
  (end_frame < Z.of_nat frames)%Z ->
  Idif.make_early_mean_image_from_4d_pet pet start_frame end_frame
  = Ok (Idif.MeanOfNoFrame frame_shape).
Proof.
  intros Hs H0 He Hf.
  rewrite (early_mean_check_passed pet frames frame_shape _ _ Hs) by lia.
  rewrite (slice_start_in_range (end_frame + 1)) by lia.
  assert (Hz : (Z.to_nat (end_frame + 1)
                - Np.slice_start start_frame frames = 0)%nat).
  { unfold Np.slice_start. destruct (Z.ltb_spec start_frame 0); lia. }
  now rewrite Hz.
Qed.

Lemma early_mean_empty_window_witness :
  Idif.make_early_mean_image_from_4d_pet
    (mkArray [10; 1; 1; 2]%nat (repeat 1 20)) 7 3
  = Ok (Idif.MeanOfNoFrame [1; 1; 2]%nat).
Proof.
  apply (early_mean_empty_window (mkArray [10; 1; 1; 2]%nat (repeat 1 20))
           10 [1; 1; 2]%nat 7 3 eq_refl); lia.
Defined.

(** ** The analyses and division by zero *)

Section Quotients.

Lemma ieee_zip_with_length {A : Type} (op : R -> R -> A) a b :
  length a = length b -> length (IeeeDiv.zip_with op a b) = length a.
Proof.
  revert b; induction a as [|x a IH]; intros [|y b] H; simpl in *;
    try discriminate; auto.
Qed.

Lemma ieee_zip_with_nth {A : Type} (op : R -> R -> A) a b i d :
  length a = length b -> (i < length a)%nat ->
  nth i (IeeeDiv.zip_with op a b) d = op (nth i a 0) (nth i b 0).
Proof.
  revert b i; induction a as [|x a IH]; intros [|y b] i H Hi; simpl in *;
    try discriminate; try lia.
  destruct i as [|i]; [reflexivity|]. apply IH; lia.
Qed.

Lemma ieee_div_same_length a b :
  length a = length b ->
  IeeeDiv.div a b = Ok (IeeeDiv.zip_with IeeeDiv.true_divide a b).
Proof.
  intros H. unfold IeeeDiv.div, IeeeDiv.ufunc2.
  now rewrite H, Nat.eqb_refl.
Qed.

Lemma finite_values_finite l :
  IeeeDiv.finite_values (map IeeeDiv.Finite l) = Some l.
Proof. induction l as [|x l IH]; simpl; [reflexivity|]. now rewrite IH. Qed.

Lemma finite_values_refused a :
  In IeeeDiv.NonFinite a -> IeeeDiv.finite_values a = None.
Proof.
  induction a as [|v a IH]; intros H; [contradiction|].
  destruct H as [->|H]; [reflexivity|].
  simpl. destruct v; [|reflexivity]. now rewrite IH.
Qed.

Lemma ieee_make_rhs xdata :
  IeeeDiv._line_fitting_make_rhs_matrix_from_xdata xdata
  = Ok (map (fun x => (x, IeeeDiv.Finite 1)) xdata).
Proof.
  unfold IeeeDiv._line_fitting_make_rhs_matrix_from_xdata, IeeeDiv.set_col0,
    IeeeDiv.ones2.
  rewrite repeat_length, Nat.eqb_refl. cbn [bind]. f_equal.
  induction xdata as [|x xs IH]; simpl; [reflexivity|]. now rewrite IH.
Qed.

Lemma finite_matrix_finite xs :
  IeeeDiv.finite_matrix
    (map (fun x => (x, IeeeDiv.Finite 1)) (map IeeeDiv.Finite xs))
  = Some (map (fun x => (x, 1)) xs).
Proof. induction xs as [|x l IH]; simpl; [reflexivity|]. now rewrite IH. Qed.

Lemma finite_matrix_refused xdata :
  In IeeeDiv.NonFinite xdata ->
  IeeeDiv.finite_matrix (map (fun x => (x, IeeeDiv.Finite 1)) xdata) = None.
Proof.
  induction xdata as [|v a IH]; intros H; [contradiction|].
  destruct H as [->|H]; [reflexivity|].
  simpl. destruct v; [|reflexivity]. now rewrite IH.
Qed.

(** On finite arrays the fitter is the fitter on their values. *)
Lemma ieee_fit_finite xs ys :
  IeeeDiv.fit_line_to_data_using_lls (map IeeeDiv.Finite xs)
    (map IeeeDiv.Finite ys)
  = fit_line_to_data_using_lls xs ys.
Proof.
  unfold IeeeDiv.fit_line_to_data_using_lls, fit_line_to_data_using_lls.
  rewrite ieee_make_rhs, make_rhs_matrix_eq. cbn [bind].
  unfold IeeeDiv.lstsq.
  now rewrite finite_matrix_finite, finite_values_finite.
Qed.

(** An entry that is not finite makes the fitter raise. *)
Lemma ieee_fit_refused xdata ydata :
  In IeeeDiv.NonFinite xdata \/ In IeeeDiv.NonFinite ydata ->
  IeeeDiv.fit_line_to_data_using_lls xdata ydata = Raise LinAlgError.
Proof.
  intros H. unfold IeeeDiv.fit_line_to_data_using_lls.
  rewrite ieee_make_rhs. cbn [bind]. unfold IeeeDiv.lstsq.
  destruct H as [H|H].
  - now rewrite finite_matrix_refused.
  - rewrite (finite_values_refused _ H).
    now destruct (IeeeDiv.finite_matrix _).
Qed.

(** The slice of a quotient array from position [k] on. *)
Lemma quotient_window a b (k : nat) :
  length a = length b -> (k <= length a)%nat ->
  Np.slice_from (Z.of_nat k) (IeeeDiv.zip_with IeeeDiv.true_divide a b)
  = map (fun i => IeeeDiv.true_divide (nth i a 0) (nth i b 0))
      (seq k (length a - k)).
Proof.
  intros Hlen Hk.
  rewrite slice_from_nat by (now rewrite ieee_zip_with_length).
  apply (nth_ext _ _ IeeeDiv.NonFinite IeeeDiv.NonFinite).
  - now rewrite length_skipn, ieee_zip_with_length, length_map, length_seq.
  - intros i Hi. rewrite length_skipn, ieee_zip_with_length in Hi by exact Hlen.
    rewrite nth_skipn, ieee_zip_with_nth by (auto; lia).
    rewrite (nth_indep _ IeeeDiv.NonFinite
               (IeeeDiv.true_divide (nth 0 a 0) (nth 0 b 0)))
      by (now rewrite length_map, length_seq).
    rewrite (map_nth (fun i => IeeeDiv.true_divide (nth i a 0) (nth i b 0))).
    now rewrite seq_nth.
Qed.

Lemma quotient_window_finite a b k n :
  (forall i, (k <= i < n)%nat -> nth i b 0 <> 0) ->
  map (fun i => IeeeDiv.true_divide (nth i a 0) (nth i b 0)) (seq k (n - k))
  = map IeeeDiv.Finite (spec_window (fun i => nth i a 0 / nth i b 0) k n).
Proof.
  intros H. unfold spec_window. rewrite map_map. apply map_ext_in.
  intros i Hi. apply in_seq in Hi. unfold IeeeDiv.true_divide.
  destruct (Req_dec_T (nth i b 0) 0) as [E|_]; [|reflexivity].
  exfalso. apply (H i); [lia|exact E].
Qed.

Lemma quotient_window_not_finite a b k n i :
  (k <= i < n)%nat -> nth i b 0 = 0 ->
  In IeeeDiv.NonFinite
    (map (fun i => IeeeDiv.true_divide (nth i a 0) (nth i b 0))
       (seq k (n - k))).
Proof.
  intros Hi E. apply in_map_iff. exists i. split.
  - unfold IeeeDiv.true_divide. now destruct (Req_dec_T (nth i b 0) 0).
  - apply in_seq. lia.
Qed.

Lemma spec_window_ext f g k n :
  (forall i, (k <= i < n)%nat -> f i = g i) ->
  spec_window f k n = spec_window g k n.
Proof.
  intros H. unfold spec_window. apply map_ext_in. intros i Hi.
  apply in_seq in Hi. apply H. lia.
Qed.

Lemma spec_window_length f k n : length (spec_window f k n) = (n - k)%nat.
Proof. unfold spec_window. now rewrite length_map, length_seq. Qed.

(** The smallest index of the spec is the index the locator returns. *)
Lemma spec_threshold_index_returned times t k :
  spec_threshold_index times t k ->
  get_index_from_threshold times t = Ok (Z.of_nat k).
Proof.
  intros (Hk & Hge & Hmin).
  destruct (get_index_from_threshold_found times t)
    as (k' & Hk' & Hget & Hge' & Hmin').
  { exists (nth k times 0). split; [now apply nth_In|exact Hge]. }
  rewrite Hget. do 2 f_equal.
  destruct (Nat.lt_trichotomy k' k) as [H|[H|H]]; [|exact H|].
  - specialize (Hmin k' H). lra.
  - specialize (Hmin' k H). lra.
Qed.

End Quotients.

Section TransformsOnQuotients.

Variables inp reg times : list R.
Variable t : R.
Variable k : nat.
Hypothesis inp_length : length inp = length times.
Hypothesis reg_length : length reg = length times.
Hypothesis index_returned :
  get_index_from_threshold times t = Ok (Z.of_nat k).

Lemma window_index_in_range : (k < length times)%nat.
Proof. now destruct (get_index_from_threshold_nat times t k index_returned). Qed.

Lemma window_times_nonempty : times <> [].
Proof. pose proof window_index_in_range. intros E. rewrite E in *. simpl in *. lia. Qed.

Lemma table_quotients m i :
  spec_x m inp reg times i
  = x_numerator inp times i / x_denominator m inp reg i
  /\ spec_y m inp reg times i
     = y_numerator m reg times i / y_denominator m inp reg i.
Proof. destruct m; split; reflexivity. Qed.

Lemma denominators_nonzero_split m :
  denominators_nonzero m inp reg k (length times) <->
  forall i, (k <= i < length times)%nat ->
            x_denominator m inp reg i <> 0 /\ y_denominator m inp reg i <> 0.
Proof.
  unfold denominators_nonzero.
  split; intros H i Hi; specialize (H i Hi); destruct m; simpl in *; tauto.
Qed.

(** Each transform is the fit of the two quotient windows. *)
Lemma program_transform_windows m :
  program_transform m inp reg times t
  = IeeeDiv.fit_line_to_data_using_lls
      (map (fun i => IeeeDiv.true_divide (x_numerator inp times i)
                       (x_denominator m inp reg i))
         (seq k (length times - k)))
      (map (fun i => IeeeDiv.true_divide (y_numerator m reg times i)
                       (y_denominator m inp reg i))
         (seq k (length times - k))).
Proof.
  pose proof window_index_in_range as Hk.
  pose proof window_times_nonempty as Hne.
  assert (Hext : forall (f g : nat -> IeeeDiv.value),
             (forall i, (i < length times)%nat -> f i = g i) ->
             map f (seq k (length times - k))
             = map g (seq k (length times - k))).
  { intros f g H. apply map_ext_in. intros i Hi. apply in_seq in Hi.
    apply H. lia. }
  destruct m; cbn [program_transform];
    unfold IeeeDiv.patlak_analysis, IeeeDiv.logan_analysis,
      IeeeDiv.alternative_logan_analysis, IeeeDiv.calculate_patlak_x;
    rewrite index_returned; cbn [bind];
    rewrite !cumulative_integral_tabulate by assumption; cbn [bind];
    rewrite !ieee_div_same_length by (rewrite ?tabulate_length; congruence);
    cbn [bind];
    rewrite !quotient_window
      by (rewrite ?tabulate_length; (congruence || lia));
    rewrite ?tabulate_length, ?inp_length, ?reg_length;
    f_equal; apply Hext; intros i Hi;
    unfold x_numerator, x_denominator, y_numerator, y_denominator;
    now rewrite ?tabulate_nth by exact Hi.
Qed.

(** Denominators that are not zero on the window: the transform is the
    fit of the coordinates of the table, taken from [k] to the end. *)
Lemma program_transform_finite m :
  denominators_nonzero m inp reg k (length times) ->
  program_transform m inp reg times t
  = fit_line_to_data_using_lls
      (spec_window (spec_x m inp reg times) k (length times))
      (spec_window (spec_y m inp reg times) k (length times)).
Proof.
  intros Hnz0.
  pose proof (proj1 (denominators_nonzero_split m) Hnz0) as Hnz.
  rewrite program_transform_windows.
  rewrite <- ieee_fit_finite. f_equal.
  - unfold spec_window. rewrite map_map. apply map_ext_in. intros i Hi.
    apply in_seq in Hi. rewrite (proj1 (table_quotients m i)).
    unfold IeeeDiv.true_divide.
    destruct (Req_dec_T (x_denominator m inp reg i) 0) as [E|_];
      [|reflexivity].
    exfalso. apply (proj1 (Hnz i ltac:(lia))). exact E.
  - unfold spec_window. rewrite map_map. apply map_ext_in. intros i Hi.
    apply in_seq in Hi. rewrite (proj2 (table_quotients m i)).
    unfold IeeeDiv.true_divide.
    destruct (Req_dec_T (y_denominator m inp reg i) 0) as [E|_];
      [|reflexivity].
    exfalso. apply (proj2 (Hnz i ltac:(lia))). exact E.
Qed.

(** A denominator that is zero on the window: the transform raises. *)
Lemma program_transform_refused m i :
  (k <= i < length times)%nat ->
  x_denominator m inp reg i = 0 \/ y_denominator m inp reg i = 0 ->
  program_transform m inp reg times t = Raise LinAlgError.
Proof.
  intros Hi Hz. rewrite program_transform_windows.
  apply ieee_fit_refused.
  destruct Hz as [E|E]; [left|right];
    (apply in_map_iff; exists i; split;
     [unfold IeeeDiv.true_divide; rewrite E;
      now destruct (Req_dec_T 0 0)
     |apply in_seq; lia]).
Qed.

End TransformsOnQuotients.

Section Agreement.

Lemma spec_window_tabulate f k n :
  tabulate (fun i => f (k + i)%nat) (n - k) = spec_window f k n.
Proof.
  unfold tabulate, spec_window.
  apply (nth_ext _ _ 0 0).
  - now rewrite !length_map, !length_seq.
  - intros i Hi. rewrite length_map, length_seq in Hi.
    rewrite (nth_indep _ 0 (f (k + 0)%nat))
      by (now rewrite length_map, length_seq).
    rewrite (map_nth (fun i => f (k + i)%nat)).
    rewrite (nth_indep _ 0 (f 0%nat)) by (now rewrite length_map, length_seq).
    rewrite (map_nth f). now rewrite !seq_nth.
Qed.

(** Where no denominator is zero on the fit window, the program on finite
    values and the program with its non-finite quotients agree. *)
Lemma finite_program_agrees m inp reg times t k :
  length inp = length times -> length reg = length times ->
  get_index_from_threshold times t = Ok (Z.of_nat k) ->
  denominators_nonzero m inp reg k (length times) ->
  program_transform m inp reg times t
  = match m with
    | Patlak => patlak_analysis inp reg times t
    | Logan => logan_analysis inp reg times t
    | AltLogan => alternative_logan_analysis inp reg times t
    end.
Proof.
  intros Hi Hr Hget Hnz.
  rewrite (program_transform_finite inp reg times t k Hi Hr Hget m Hnz).
  destruct (get_index_from_threshold_nat times t k Hget) as (Hk & _).
  assert (E : tabulated_transform m inp reg times t
              = fit_line_to_data_using_lls
                  (spec_window (spec_x m inp reg times) k (length times))
                  (spec_window (spec_y m inp reg times) k (length times))).
  { unfold tabulated_transform. rewrite Hget. cbn [bind].
    rewrite !slice_from_tabulate by lia.
    now rewrite !spec_window_tabulate. }
  rewrite <- E.
  destruct m; symmetry;
    [apply patlak_analysis_spec|apply logan_analysis_spec
    |apply alternative_logan_analysis_spec]; assumption.
Qed.

End Agreement.

(** C3, the claim as stated, fails: on input values [[0, 2, 4]], region
    values [[1, 3, 5]], times [[0, 1, 2]] and threshold [0] the fit window
    starts at index 0, where the Patlak abscissa is [0 / 0]; the line fit
    refuses the value and [patlak_analysis] raises [LinAlgError] instead of
    returning a fitted line. *)
Lemma method_table_contract_fails :
  ~ method_table_contract Patlak [0; 2; 4] [1; 3; 5] [0; 1; 2] 0.
Proof.
  intros (k & slope & intercept & _ & Hprog & _).
  assert (Hget : get_index_from_threshold [0; 1; 2] 0 = Ok (Z.of_nat 0))
    by eval_locator.
  rewrite (program_transform_refused [0; 2; 4] [1; 3; 5] [0; 1; 2] 0 0
             eq_refl eq_refl Hget Patlak 0) in Hprog.
  - discriminate Hprog.
  - simpl. lia.
  - left. reflexivity.
Qed.

(** C3, amended: for input and region values of the length of [times],
    when [k] is the smallest index whose time reaches the threshold and the
    denominators of the method's row are not zero from [k] on, the
    transform returns a least-squares line of the coordinates of its row
    (Patlak: [x = integral(times, input) / input], [y = region / input];
    Logan: [x = integral(times, input) / region],
    [y = integral(times, region) / region]; alternative Logan:
    [x = integral(times, input) / region],
    [y = integral(times, region) / input]) taken from [k] to the end. *)
Theorem transforms_follow_method_table (m : method)
  (inp reg times : list R) (t : R) (k : nat) :
  length inp = length times ->
  length reg = length times ->
  spec_threshold_index times t k ->
  denominators_nonzero m inp reg k (length times) ->
  exists slope intercept,
    program_transform m inp reg times t = Ok (slope, intercept)
    /\ least_squares_line
         (spec_window (spec_x m inp reg times) k (length times))
         (spec_window (spec_y m inp reg times) k (length times))
         slope intercept.
Proof.
  intros Hi Hr Hidx Hnz.
  pose proof (spec_threshold_index_returned times t k Hidx) as Hget.
  destruct Hidx as (Hk & _).
  rewrite (program_transform_finite inp reg times t k Hi Hr Hget m Hnz).
  set (xs := spec_window (spec_x m inp reg times) k (length times)).
  set (ys := spec_window (spec_y m inp reg times) k (length times)).
  assert (Hlen : length xs = length ys)
    by (unfold xs, ys; now rewrite !spec_window_length).
  assert (Hne : xs <> []).
  { intros E. apply (f_equal (@length R)) in E. unfold xs in E.
    rewrite spec_window_length in E. simpl in E. lia. }
  rewrite (fit_line_eq xs ys Hne Hlen).
  pose proof (fun m' b' => fit_line_minimises xs ys m' b' Hlen) as Hmin.
  destruct (Linalg.solve2 _ ys) as [slope intercept].
  exists slope, intercept. split; [reflexivity|exact Hmin].
Qed.

Lemma transforms_follow_method_table_witness :
  exists slope intercept,
    program_transform Patlak [1; 1; 1] [3; 5; 7] [0; 1; 2] 1
    = Ok (slope, intercept)
    /\ least_squares_line
         (spec_window (spec_x Patlak [1; 1; 1] [3; 5; 7] [0; 1; 2]) 1
            (length [0; 1; 2]))
         (spec_window (spec_y Patlak [1; 1; 1] [3; 5; 7] [0; 1; 2]) 1
            (length [0; 1; 2]))
         slope intercept.
Proof.
  apply (transforms_follow_method_table Patlak [1; 1; 1] [3; 5; 7]
           [0; 1; 2] 1 1).
  - reflexivity.
  - reflexivity.
  - unfold spec_threshold_index. simpl. split; [lia|]. split; [lra|].
    intros [|j] Hj; [simpl; lra|lia].
  - intros [|[|[|i]]] Hi; simpl in *; try lia; lra.
Defined.

(** X7: on an empty [times] each analysis raises the [ValueError] of the
    empty maximum, whatever the other arguments are.  On input and region
    values of the length of [times] and with [k] the smallest index whose
    time reaches the threshold, an analysis returns a pair when the
    denominators of its row are not zero from [k] on, and raises
    [LinAlgError] when one of them is zero there. *)
Theorem analyses_and_zero_denominators (m : method)
  (inp reg times : list R) (t : R) :
  (times = [] ->
   exists msg,
     program_transform m inp reg times t = Raise (ValueError msg))
  /\ (forall k,
        length inp = length times ->
        length reg = length times ->
        spec_threshold_index times t k ->
        (denominators_nonzero m inp reg k (length times) ->
         is_ok (program_transform m inp reg times t) = true)
        /\ ((exists i, (k <= i < length times)%nat
                       /\ (x_denominator m inp reg i = 0
                           \/ y_denominator m inp reg i = 0)) ->
            program_transform m inp reg times t = Raise LinAlgError)).
Proof.
  split.
  - intros ->. destruct m; eexists; reflexivity.
  - intros k Hi Hr Hidx.
    pose proof (spec_threshold_index_returned times t k Hidx) as Hget.
    split.
    + intros Hnz.
      rewrite (program_transform_finite inp reg times t k Hi Hr Hget m Hnz).
      destruct Hidx as (Hk & _).
      rewrite fit_line_eq; [reflexivity| |now rewrite !spec_window_length].
      intros E. apply (f_equal (@length R)) in E.
      rewrite spec_window_length in E. simpl in E. lia.
    + intros (i & Hw & Hz).
      exact (program_transform_refused inp reg times t k Hi Hr Hget m i Hw Hz).
Qed.

Lemma analyses_and_zero_denominators_witness :
  is_ok (program_transform Logan [1; 3; 5] [0; 5; 7] [0; 1; 2] 1) = true
  /\ program_transform Logan [1; 3; 5] [0; 5; 7] [0; 1; 2] 0
     = Raise LinAlgError.
Proof.
  split.
  - apply (proj2 (analyses_and_zero_denominators Logan [1; 3; 5] [0; 5; 7]
                    [0; 1; 2] 1) 1%nat); try reflexivity.
    + unfold spec_threshold_index. simpl. split; [lia|]. split; [lra|].
      intros [|j] Hj; [simpl; lra|lia].
    + intros [|[|[|i]]] Hi; simpl in *; try lia; lra.
  - apply (proj2 (analyses_and_zero_denominators Logan [1; 3; 5] [0; 5; 7]
                    [0; 1; 2] 0) 0%nat); try reflexivity.
    + unfold spec_threshold_index. simpl. split; [lia|]. split; [lra|].
      intros j Hj. lia.
    + exists 0%nat. split; [simpl; lia|]. left. reflexivity.
Defined.

(** X12: alternative Logan analysis returns the line its coordinates lie
    on: when, on the fit window, the input and the region values are not
    zero, [integral(region) / input = a * (integral(input) / region) + b],
    and the abscissas take two different values, the result is [(a, b)]. *)
Theorem alternative_logan_recovers_line (inp reg times ci cr : list R)
  (t a b : R) (k : nat) :
  length inp = length times ->
  length reg = length times ->
  get_index_from_threshold times t = Ok (Z.of_nat k) ->
  cumulative_trapezoidal_integral times inp 0 = Ok ci ->
  cumulative_trapezoidal_integral times reg 0 = Ok cr ->
  (forall i, (k <= i < length times)%nat ->
             nth i inp 0 <> 0 /\ nth i reg 0 <> 0
             /\ nth i cr 0 / nth i inp 0
                = a * (nth i ci 0 / nth i reg 0) + b) ->
  (exists i j, (k <= i < length times)%nat /\ (k <= j < length times)%nat
               /\ nth i ci 0 / nth i reg 0 <> nth j ci 0 / nth j reg 0) ->
  IeeeDiv.alternative_logan_analysis inp reg times t = Ok (a, b)
  /\ alternative_logan_analysis inp reg times t = Ok (a, b).
Proof.
  intros Hi Hr Hget Hci Hcr Hmodel (i & j & Hwi & Hwj & Hne).
  assert (Hnz : denominators_nonzero AltLogan inp reg k (length times)).
  { intros p Hp. destruct (Hmodel p Hp) as (H1 & H2 & _). now split. }
  pose proof (finite_program_agrees AltLogan inp reg times t k Hi Hr Hget Hnz)
    as Hagree.
  cbn [program_transform] in Hagree. rewrite Hagree.
  assert (Hfin : alternative_logan_analysis inp reg times t = Ok (a, b)).
  { rewrite alternative_logan_analysis_spec by assumption.
    apply (tabulated_transform_on_line AltLogan inp reg times t k a b Hget).
    - intros p Hp. unfold spec_y, spec_x.
      rewrite <- (cumulative_integral_read times inp ci p Hi Hci) by lia.
      rewrite <- (cumulative_integral_read times reg cr p Hr Hcr) by lia.
      now apply Hmodel.
    - exists i, j. repeat split; try lia. unfold spec_x.
      rewrite <- !(cumulative_integral_read times inp ci _ Hi Hci) by lia.
      exact Hne. }
  now split.
Qed.

Lemma alternative_logan_recovers_line_witness :
  IeeeDiv.alternative_logan_analysis [1; 3; 5] [1; 1; 1] [0; 1; 2] 1
  = Ok (1 / 60, 3 / 10)
  /\ alternative_logan_analysis [1; 3; 5] [1; 1; 1] [0; 1; 2] 1
     = Ok (1 / 60, 3 / 10).
Proof.
  apply (alternative_logan_recovers_line [1; 3; 5] [1; 1; 1] [0; 1; 2]
           [0; 2; 6] [0; 1; 2] 1 (1 / 60) (3 / 10) 1).
  - reflexivity.
  - reflexivity.
  - eval_locator.
  - eval_integral.
  - eval_integral.
  - intros [|[|[|i]]] Hi; simpl in *; try lia; repeat split; lra.
  - exists 1%nat, 2%nat. simpl. repeat split; try lia. lra.
Defined.

(** ** The threshold locator and NaN *)

(** Decides the comparisons of floats once their shapes are known. *)
Ltac decide_floats :=
  cbn [Ieee.ltb Ieee.leb Ieee.is_nan Ieee.max2] in *;
  repeat match goal with
    | H : context [Rle_dec ?a ?b] |- _ => destruct (Rle_dec a b)
    | H : context [Rlt_dec ?a ?b] |- _ => destruct (Rlt_dec a b)
    | |- context [Rle_dec ?a ?b] => destruct (Rle_dec a b)
    | |- context [Rlt_dec ?a ?b] => destruct (Rlt_dec a b)
    end;
  cbn [Ieee.ltb Ieee.leb Ieee.is_nan Ieee.max2] in *;
  try discriminate; try reflexivity; try lra; auto.

Section FloatOrder.

Lemma ieee_leb_trans a b c :
  Ieee.leb a b = true -> Ieee.leb b c = true -> Ieee.leb a c = true.
Proof. destruct a, b, c; intros; decide_floats. Qed.

Lemma ieee_ltb_leb_trans a b c :
  Ieee.ltb a b = true -> Ieee.leb b c = true -> Ieee.ltb a c = true.
Proof. destruct a, b, c; intros; decide_floats. Qed.

Lemma ieee_total a b :
  Ieee.is_nan a = false -> Ieee.is_nan b = false ->
  Ieee.ltb a b = true \/ Ieee.leb b a = true.
Proof.
  destruct a, b; intros; decide_floats;
    try (left; reflexivity); try (right; reflexivity).
Qed.

Lemma ieee_ltb_nan_r a : Ieee.ltb a Ieee.NaN = false.
Proof. now destruct a. Qed.

Lemma ieee_ltb_excludes_leb a b :
  Ieee.ltb a b = true -> Ieee.leb b a = false.
Proof. destruct a, b; intros; decide_floats. Qed.

Lemma ieee_max2_spec a b :
  Ieee.is_nan a = false -> Ieee.is_nan b = false ->
  Ieee.is_nan (Ieee.max2 a b) = false
  /\ Ieee.leb a (Ieee.max2 a b) = true
  /\ Ieee.leb b (Ieee.max2 a b) = true
  /\ (Ieee.max2 a b = a \/ Ieee.max2 a b = b).
Proof.
  intros Ha Hb. unfold Ieee.max2. rewrite Ha, Hb.
  destruct (Ieee.ltb a b) eqn:E.
  - repeat split; auto.
    + destruct a, b; decide_floats.
    + destruct b; decide_floats.
  - destruct (ieee_total a b Ha Hb) as [H|H]; [congruence|].
    repeat split; auto. destruct a; decide_floats.
Qed.

Lemma ieee_fold_max_spec a x :
  Forall (fun y => Ieee.is_nan y = false) (x :: a) ->
  Ieee.is_nan (fold_left Ieee.max2 a x) = false
  /\ In (fold_left Ieee.max2 a x) (x :: a)
  /\ forall y, In y (x :: a) -> Ieee.leb y (fold_left Ieee.max2 a x) = true.
Proof.
  revert x; induction a as [|z a IH]; intros x H.
  - inversion H as [|? ? Hx _]; subst. simpl.
    split; [exact Hx|]. split; [now left|].
    intros y [<-|[]]. destruct x; decide_floats.
  - inversion H as [|? ? Hx Hrest]; subst.
    inversion Hrest as [|? ? Hz Ha]; subst.
    destruct (ieee_max2_spec x z Hx Hz) as (Hn & Lx & Lz & Hin).
    destruct (IH (Ieee.max2 x z)) as (Hn' & Hin' & Hub).
    { constructor; assumption. }
    cbn [fold_left]. split; [exact Hn'|]. split.
    + destruct Hin' as [E|E].
      * rewrite <- E. destruct Hin as [-> | ->]; simpl; auto.
      * simpl. auto.
    + intros y [<-|[<-|Hy]].
      * eapply ieee_leb_trans; [exact Lx|]. apply Hub. now left.
      * eapply ieee_leb_trans; [exact Lz|]. apply Hub. now left.
      * apply Hub. now right.
Qed.

Lemma ieee_first_index_found times t i :
  (exists x, In x times /\ Ieee.leb t x = true) ->
  exists k, (k < length times)%nat
    /\ Np.first_index (Np.argwhere_from i (Ieee.ge_scalar times t))
       = Ok (Z.of_nat (i + k))
    /\ Ieee.leb t (nth k times Ieee.NaN) = true
    /\ forall j, (j < k)%nat -> Ieee.leb t (nth j times Ieee.NaN) = false.
Proof.
  revert i; induction times as [|x a IH]; intros i (y & Hy & Hty).
  - contradiction.
  - simpl. destruct (Ieee.leb t x) eqn:E.
    + exists 0%nat. simpl. rewrite Nat.add_0_r.
      repeat split; auto; try lia.
    + destruct Hy as [Hy|Hy]; [subst; congruence|].
      destruct (IH (S i)) as (k & Hk & Hfirst & Hnth & Hmin); [eauto|].
      exists (S k). simpl. replace (i + S k)%nat with (S i + k)%nat by lia.
      repeat split; auto; try lia.
      intros [|j] Hj; [exact E|]. apply Hmin. lia.
Qed.

Lemma ieee_argwhere_empty times t i :
  Np.argwhere_from i (Ieee.ge_scalar times t) = [] ->
  forall x, In x times -> Ieee.leb t x = false.
Proof.
  revert i; induction times as [|x a IH]; intros i H y Hy; [contradiction|].
  simpl in H. destruct (Ieee.leb t x) eqn:E; [discriminate|].
  destruct Hy as [Hy|Hy]; [now subst|]. eapply IH; eauto.
Qed.

(** On finite values the locator with special values is the locator
    above. *)
Lemma ieee_locator_on_finite times t :
  Ieee.get_index_from_threshold (map Ieee.Fin times) (Ieee.Fin t)
  = get_index_from_threshold times t.
Proof.
  unfold Ieee.get_index_from_threshold, get_index_from_threshold.
  assert (Hmask : Ieee.ge_scalar (map Ieee.Fin times) (Ieee.Fin t)
                  = Np.ge_scalar times t).
  { unfold Ieee.ge_scalar, Np.ge_scalar. rewrite map_map. reflexivity. }
  rewrite Hmask.
  destruct times as [|x a]; [reflexivity|]. cbn [map Ieee.max Np.max bind].
  assert (Hmax : forall l y, fold_left Ieee.max2 (map Ieee.Fin l) (Ieee.Fin y)
                             = Ieee.Fin (fold_left Rmax l y)).
  { induction l as [|z l IH]; intros y; [reflexivity|].
    cbn [map fold_left].
    replace (Ieee.max2 (Ieee.Fin y) (Ieee.Fin z)) with (Ieee.Fin (Rmax y z));
      [apply IH|].
    unfold Ieee.max2, Rmax. cbn [Ieee.is_nan Ieee.ltb].
    destruct (Rlt_dec y z), (Rle_dec y z); try reflexivity; try lra.
    f_equal. lra. }
  rewrite Hmax. cbn [Ieee.ltb].
  now destruct (Rlt_dec (fold_left Rmax a x) t).
Qed.

End FloatOrder.

(** C10, the claim as stated, fails: with a NaN threshold on the times
    [[0, 1, 2]] both comparisons of the locator are false, so the mask has
    no matching position although the threshold does not exceed the
    maximum, and the first index is read outside the array. *)
Lemma index_read_contract_fails :
  ~ index_read_contract [Ieee.Fin 0; Ieee.Fin 1; Ieee.Fin 2] Ieee.NaN.
Proof.
  intros H. destruct (H _ eq_refl) as [_ Hempty].
  specialize (Hempty eq_refl).
  rewrite ieee_ltb_nan_r in Hempty. discriminate Hempty.
Qed.

Lemma nan_threshold_reads_out_of_bounds :
  Ieee.get_index_from_threshold [Ieee.Fin 0; Ieee.Fin 1; Ieee.Fin 2] Ieee.NaN
  = Raise IndexError.
Proof.
  unfold Ieee.get_index_from_threshold. cbn [Ieee.max bind].
  now rewrite ieee_ltb_nan_r.
Qed.

(** C10, amended: for every non-empty [times] without NaN and every
    threshold that is not NaN, with [m] the maximum of [times]: when
    [t_thresh <= m] some index [i] has [times[i] >= t_thresh], the read of
    the first matching index is inside the array, and the locator returns
    an index in [[0, len(times))]; the mask has no matching index only when
    [t_thresh > m], and then the locator returns [-1]. *)
Theorem threshold_index_in_bounds (times : list Ieee.float)
  (t : Ieee.float) :
  times <> [] ->
  Forall (fun x => Ieee.is_nan x = false) times ->
  Ieee.is_nan t = false ->
  exists m,
    Ieee.max times = Ok m
    /\ (Ieee.leb t m = true ->
        (exists i, (i < length times)%nat
                   /\ Ieee.leb t (nth i times Ieee.NaN) = true)
        /\ exists k,
            Np.first_index (Np.argwhere (Ieee.ge_scalar times t))
            = Ok (Z.of_nat k)
            /\ Ieee.get_index_from_threshold times t = Ok (Z.of_nat k)
            /\ (0 <= Z.of_nat k < Z.of_nat (length times))%Z)
    /\ (Np.argwhere (Ieee.ge_scalar times t) = [] -> Ieee.ltb m t = true)
    /\ (Ieee.ltb m t = true ->
        Ieee.get_index_from_threshold times t = Ok (-1)%Z).
Proof.
  intros Hne Hnan Ht.
  destruct times as [|x a]; [contradiction|].
  destruct (ieee_fold_max_spec a x Hnan) as (Hm & Hin & Hub).
  set (m := fold_left Ieee.max2 a x) in *.
  exists m. split; [reflexivity|]. split; [|split].
  - intros Htm.
    assert (Hex : exists y, In y (x :: a) /\ Ieee.leb t y = true) by eauto.
    destruct (In_nth _ _ Ieee.NaN Hin) as (i & Hi & Hnth).
    split; [exists i; rewrite Hnth; auto|].
    destruct (ieee_first_index_found (x :: a) t 0 Hex)
      as (k & Hk & Hf & _).
    exists k. split; [exact Hf|]. split; [|lia].
    unfold Ieee.get_index_from_threshold. cbn [Ieee.max bind]. fold m.
    destruct (Ieee.ltb m t) eqn:E; [|exact Hf].
    rewrite (ieee_ltb_excludes_leb m t E) in Htm. discriminate.
  - intros Hempty.
    pose proof (ieee_argwhere_empty (x :: a) t 0 Hempty m Hin) as Hlt.
    destruct (ieee_total m t Hm Ht) as [H|H]; [exact H|congruence].
  - intros Hlt. unfold Ieee.get_index_from_threshold.
    cbn [Ieee.max bind]. fold m. now rewrite Hlt.
Qed.

Lemma threshold_index_in_bounds_witness :
  exists m,
    Ieee.max [Ieee.Fin 0; Ieee.Fin 1; Ieee.PInf] = Ok m
    /\ (Ieee.leb (Ieee.Fin 2) m = true ->
        (exists i, (i < 3)%nat
                   /\ Ieee.leb (Ieee.Fin 2)
                        (nth i [Ieee.Fin 0; Ieee.Fin 1; Ieee.PInf] Ieee.NaN)
                      = true)
        /\ exists k,
            Np.first_index
              (Np.argwhere
                 (Ieee.ge_scalar [Ieee.Fin 0; Ieee.Fin 1; Ieee.PInf]
                    (Ieee.Fin 2)))
            = Ok (Z.of_nat k)
            /\ Ieee.get_index_from_threshold
                 [Ieee.Fin 0; Ieee.Fin 1; Ieee.PInf] (Ieee.Fin 2)
               = Ok (Z.of_nat k)
            /\ (0 <= Z.of_nat k < Z.of_nat 3)%Z)
    /\ (Np.argwhere
          (Ieee.ge_scalar [Ieee.Fin 0; Ieee.Fin 1; Ieee.PInf] (Ieee.Fin 2))
        = [] -> Ieee.ltb m (Ieee.Fin 2) = true)
    /\ (Ieee.ltb m (Ieee.Fin 2) = true ->
        Ieee.get_index_from_threshold [Ieee.Fin 0; Ieee.Fin 1; Ieee.PInf]
          (Ieee.Fin 2) = Ok (-1)%Z).
Proof.
  apply (threshold_index_in_bounds [Ieee.Fin 0; Ieee.Fin 1; Ieee.PInf]
           (Ieee.Fin 2)).
  - discriminate.
  - repeat constructor.
  - reflexivity.
Defined.

(** ** The line fitter on empty arrays *)



(** ** Frame midpoints and the range of [int64] *)

Section FrameMidpoints.

Lemma trunc_nonneg x :
  0 <= x -> IZR (Idif.trunc x) <= x < IZR (Idif.trunc x) + 1.
Proof.
  intros Hx. unfold Idif.trunc.
  destruct (Rle_dec 0 x) as [_|H]; [|contradiction].
  destruct (base_Int_part x) as [H1 H2]. lra.
Qed.

Lemma trunc_above_integer z x :
  0 <= x -> IZR z <= x -> (z <= Idif.trunc x)%Z.
Proof.
  intros Hx Hz. destruct (trunc_nonneg x Hx) as [_ Hup].
  assert (H : IZR z < IZR (Idif.trunc x + 1)).
  { rewrite plus_IZR. lra. }
  apply lt_IZR in H. lia.
Qed.

(** Inside the range of [int64] the cast is the truncation. *)
Lemma astype_int_in_range x :
  0 <= x -> x < IZR (2 ^ 63) -> Idif.astype_int x = Idif.trunc x.
Proof.
  intros Hx Hup. unfold Idif.astype_int. cbv zeta.
  destruct (trunc_nonneg x Hx) as [Hlo _].
  pose proof (trunc_above_integer 0 x Hx Hx) as H0.
  assert (H : IZR (Idif.trunc x) < IZR (2 ^ 63)) by lra.
  apply lt_IZR in H.
  change (2 ^ 63)%Z with 9223372036854775808%Z in H.
  assert (E1 : (Idif.int64_min <=? Idif.trunc x)%Z = true).
  { apply Z.leb_le. unfold Idif.int64_min.
    change (2 ^ 63)%Z with 9223372036854775808%Z. lia. }
  assert (E2 : (Idif.trunc x <=? Idif.int64_max)%Z = true).
  { apply Z.leb_le. unfold Idif.int64_max.
    change (2 ^ 63)%Z with 9223372036854775808%Z. lia. }
  now rewrite E1, E2.
Qed.

Lemma nth_astype_int l i :
  (i < length l)%nat ->
  nth i (map Idif.astype_int l) 0%Z = Idif.astype_int (nth i l 0).
Proof.
  intros Hi.
  rewrite (nth_indep _ 0%Z (Idif.astype_int 0)) by (now rewrite length_map).
  apply map_nth.
Qed.

End FrameMidpoints.

(** X17: on start times and durations of one length the midpoints are
    returned, one integer per frame.  For a frame with non-negative start
    [s] and duration [d] whose [s + d / 2] is below [2^63] (inside
    [int64]), the integer is [s + d / 2] rounded down; when [s] is itself
    an integer the midpoint lies inside the frame, between [s] and
    [s + d]. *)
Theorem frame_midpoints_round_down (starts durations : list R) :
  length starts = length durations ->
  exists mids,
    Idif.get_frame_time_midpoints starts durations = Ok mids
    /\ length mids = length starts
    /\ forall i, (i < length starts)%nat ->
         0 <= nth i starts 0 -> 0 <= nth i durations 0 ->
         nth i starts 0 + nth i durations 0 / 2 < IZR (2 ^ 63) ->
         IZR (nth i mids 0%Z) <= nth i starts 0 + nth i durations 0 / 2
         /\ nth i starts 0 + nth i durations 0 / 2 < IZR (nth i mids 0%Z) + 1
         /\ forall z, nth i starts 0 = IZR z ->
              (z <= nth i mids 0%Z)%Z
              /\ IZR (nth i mids 0%Z) <= nth i starts 0 + nth i durations 0.
Proof.
  intros Hlen. unfold Idif.get_frame_time_midpoints, Np.add.
  rewrite ufunc2_same_length by (now rewrite div_scalar_length).
  cbn [bind]. eexists. split; [reflexivity|].
  split.
  { rewrite length_map, zip_with_length; auto.
    now rewrite div_scalar_length. }
  intros i Hi Hs Hd Hrange.
  rewrite nth_astype_int
    by (rewrite zip_with_length; auto; now rewrite div_scalar_length).
  rewrite zip_with_nth by (rewrite ?div_scalar_length; lia).
  rewrite div_scalar_nth by lia.
  set (s := nth i starts 0) in *. set (d := nth i durations 0) in *.
  assert (Hm : 0 <= s + d / 2) by lra.
  rewrite astype_int_in_range by assumption.
  destruct (trunc_nonneg _ Hm) as [Hlo Hup].
  repeat split; try assumption.
  - apply trunc_above_integer; [exact Hm|]. lra.
  - lra.
Qed.

Lemma frame_midpoints_round_down_witness :
  exists mids,
    Idif.get_frame_time_midpoints [0; 5; 10] [5; 5; 3] = Ok mids
    /\ length mids = length [0; 5; 10]
    /\ forall i, (i < length [0; 5; 10])%nat ->
         0 <= nth i [0; 5; 10] 0 -> 0 <= nth i [5; 5; 3] 0 ->
         nth i [0; 5; 10] 0 + nth i [5; 5; 3] 0 / 2 < IZR (2 ^ 63) ->
         IZR (nth i mids 0%Z) <= nth i [0; 5; 10] 0 + nth i [5; 5; 3] 0 / 2
         /\ nth i [0; 5; 10] 0 + nth i [5; 5; 3] 0 / 2
            < IZR (nth i mids 0%Z) + 1
         /\ forall z, nth i [0; 5; 10] 0 = IZR z ->
              (z <= nth i mids 0%Z)%Z
              /\ IZR (nth i mids 0%Z)
                 <= nth i [0; 5; 10] 0 + nth i [5; 5; 3] 0.
Proof.
  apply (frame_midpoints_round_down [0; 5; 10] [5; 5; 3]). reflexivity.
Defined.

(** ** Masks on images that may hold NaN *)

Section FloatMasks.

Lemma nth_map_in_range {A B : Type} (f : A -> B) l i d d' :
  (i < length l)%nat -> nth i (map f l) d' = f (nth i l d).
Proof.
  intros Hi. rewrite (nth_indep _ d' (f d)) by (now rewrite length_map).
  apply map_nth.
Qed.

Lemma zip_floats_length op a b :
  length a = length b -> length (Ieee.zip_floats op a b) = length a.
Proof.
  revert b; induction a as [|x a IH]; intros [|y b] H; simpl in *;
    try discriminate; auto.
Qed.

Lemma zip_floats_nth op a b i :
  length a = length b -> (i < length a)%nat ->
  nth i (Ieee.zip_floats op a b) Ieee.NaN
  = op (nth i a Ieee.NaN) (nth i b Ieee.NaN).
Proof.
  revert b i; induction a as [|x a IH]; intros [|y b] i H Hi; simpl in *;
    try discriminate; try lia.
  destruct i as [|i]; [reflexivity|]. apply IH; lia.
Qed.

Lemma ieee_crop_same_shape (a m : ndarray Ieee.float) :
  shape a = shape m ->
  Ieee.crop_by_input_function_mask a m
  = Ok (mkArray (shape a) (Ieee.zip_floats Ieee.mul (data a) (data m))).
Proof.
  intros H. unfold Ieee.crop_by_input_function_mask.
  now rewrite (proj2 (shape_eqb_eq _ _) H).
Qed.

Lemma mask_entry (x th : Ieee.float) :
  ((if Ieee.ltb x th then 0 else 1) = 0 \/ (if Ieee.ltb x th then 0 else 1) = 1)%Z
  /\ ((if Ieee.ltb x th then 0 else 1)%Z = 0%Z <-> Ieee.ltb x th = true)
  /\ ((if Ieee.ltb x th then 0 else 1)%Z = 1%Z <-> Ieee.ltb x th = false).
Proof.
  destruct (Ieee.ltb x th); repeat split; auto; discriminate.
Qed.

End FloatMasks.

(** X19: the threshold mask has the shape of its argument and holds only
    0 and 1: an element is 0 exactly when its value compares below the
    threshold.  A NaN element is therefore always 1; for a finite value and
    a finite threshold the element is 1 exactly when the value is at or
    above the threshold.  Raising the threshold never turns a 0 into a
    1. *)
Theorem threshold_mask_selects (a : ndarray Ieee.float)
  (th1 th2 : Ieee.float) :
  shape (Ieee.make_threshold_binary_mask a th1) = shape a
  /\ length (data (Ieee.make_threshold_binary_mask a th1)) = length (data a)
  /\ (forall i, (i < length (data a))%nat ->
        let e := nth i (data (Ieee.make_threshold_binary_mask a th1)) 0%Z in
        (e = 0%Z \/ e = 1%Z)
        /\ (e = 0%Z <-> Ieee.ltb (nth i (data a) Ieee.NaN) th1 = true)
        /\ (nth i (data a) Ieee.NaN = Ieee.NaN -> e = 1%Z)
        /\ (forall x t, nth i (data a) Ieee.NaN = Ieee.Fin x ->
                        th1 = Ieee.Fin t -> (e = 1%Z <-> t <= x)))
  /\ (Ieee.leb th1 th2 = true ->
      forall i, (i < length (data a))%nat ->
        (nth i (data (Ieee.make_threshold_binary_mask a th2)) 0
         <= nth i (data (Ieee.make_threshold_binary_mask a th1)) 0)%Z).
Proof.
  unfold Ieee.make_threshold_binary_mask. cbn [shape data].
  split; [reflexivity|]. split; [apply length_map|]. split.
  - intros i Hi. cbv zeta.
    rewrite (nth_map_in_range _ _ _ Ieee.NaN) by exact Hi.
    destruct (mask_entry (nth i (data a) Ieee.NaN) th1) as (H01 & H0 & H1).
    split; [exact H01|]. split; [exact H0|]. split.
    + intros E. rewrite E. reflexivity.
    + intros x t Ex Et. rewrite Ex, Et. cbn [Ieee.ltb].
      destruct (Rlt_dec x t); split; intros; (discriminate || lra || reflexivity).
  - intros Hle i Hi.
    rewrite !(nth_map_in_range _ _ _ Ieee.NaN) by exact Hi.
    destruct (Ieee.ltb (nth i (data a) Ieee.NaN) th1) eqn:E1;
      [rewrite (ieee_ltb_leb_trans _ _ _ E1 Hle); lia|].
    destruct (Ieee.ltb (nth i (data a) Ieee.NaN) th2); lia.
Qed.

Lemma threshold_mask_selects_witness :
  data (Ieee.make_threshold_binary_mask
          (mkArray [3]%nat [Ieee.NaN; Ieee.Fin 1; Ieee.Fin 3]) (Ieee.Fin 2))
  = [1; 0; 1]%Z
  /\ (forall i, (i < 3)%nat ->
        (nth i (data (Ieee.make_threshold_binary_mask
                        (mkArray [3]%nat [Ieee.NaN; Ieee.Fin 1; Ieee.Fin 3])
                        (Ieee.Fin 5))) 0
         <= nth i (data (Ieee.make_threshold_binary_mask
                           (mkArray [3]%nat [Ieee.NaN; Ieee.Fin 1; Ieee.Fin 3])
                           (Ieee.Fin 2))) 0)%Z).
Proof.
  split.
  - unfold Ieee.make_threshold_binary_mask. cbn. decide_reals. reflexivity.
  - apply (proj2 (proj2 (proj2
             (threshold_mask_selects
                (mkArray [3]%nat [Ieee.NaN; Ieee.Fin 1; Ieee.Fin 3])
                (Ieee.Fin 2) (Ieee.Fin 5))))).
    cbn. decide_reals; reflexivity.
Defined.

(** X21: thresholding a cropped image, with a mask of zeros and ones.
    Inside the mask an element is selected exactly when its image value
    does not compare below the threshold.  Outside the mask a finite
    element is selected exactly when the threshold is at or below zero, and
    a NaN or infinite element is always selected: its product with 0 is
    NaN. *)
Theorem threshold_of_cropped_image (a m : ndarray Ieee.float) (th : R) :
  shape a = shape m -> well_formed a -> well_formed m ->
  (forall i, (i < length (data m))%nat ->
             nth i (data m) Ieee.NaN = Ieee.Fin 0
             \/ nth i (data m) Ieee.NaN = Ieee.Fin 1) ->
  exists cropped,
    Ieee.crop_by_input_function_mask a m = Ok cropped
    /\ forall i, (i < length (data a))%nat ->
         let selected :=
           nth i (data (Ieee.make_threshold_binary_mask cropped
                          (Ieee.Fin th))) 0%Z in
         let value := nth i (data a) Ieee.NaN in
         (nth i (data m) Ieee.NaN = Ieee.Fin 1 ->
          (selected = 1%Z <-> Ieee.ltb value (Ieee.Fin th) = false))
         /\ (nth i (data m) Ieee.NaN = Ieee.Fin 0 ->
             forall x, value = Ieee.Fin x ->
                       (selected = 1%Z <-> th <= 0))
         /\ (nth i (data m) Ieee.NaN = Ieee.Fin 0 ->
             value = Ieee.NaN \/ value = Ieee.PInf \/ value = Ieee.NInf ->
             selected = 1%Z).
Proof.
  intros Hs Ha Hm Hbin. unfold well_formed in *.
  assert (Hlen : length (data a) = length (data m)) by congruence.
  rewrite ieee_crop_same_shape by exact Hs.
  eexists. split; [reflexivity|].
  intros i Hi. cbv zeta. unfold Ieee.make_threshold_binary_mask.
  cbn [shape data].
  rewrite (nth_map_in_range _ _ _ Ieee.NaN)
    by (rewrite zip_floats_length; assumption).
  rewrite zip_floats_nth by assumption.
  set (v := nth i (data a) Ieee.NaN).
  split; [|split].
  - intros ->. destruct v; cbn [Ieee.mul Ieee.ltb]; decide_reals;
      split; intros; (discriminate || reflexivity || lra).
  - intros -> x ->. cbn [Ieee.mul Ieee.ltb].
    destruct (Rlt_dec (x * 0) th); split; intros;
      (discriminate || reflexivity || lra).
  - intros -> [-> | [-> | ->]]; cbn [Ieee.mul Ieee.ltb]; decide_reals;
      reflexivity.
Qed.

Lemma threshold_of_cropped_image_witness :
  exists cropped,
    Ieee.crop_by_input_function_mask
      (mkArray [2; 2]%nat [Ieee.NaN; Ieee.Fin 3; Ieee.Fin 1; Ieee.Fin 5])
      (mkArray [2; 2]%nat [Ieee.Fin 0; Ieee.Fin 1; Ieee.Fin 1; Ieee.Fin 0])
    = Ok cropped
    /\ data (Ieee.make_threshold_binary_mask cropped (Ieee.Fin 2))
       = [1; 1; 0; 0]%Z.
Proof.
  destruct (threshold_of_cropped_image
              (mkArray [2; 2]%nat
                 [Ieee.NaN; Ieee.Fin 3; Ieee.Fin 1; Ieee.Fin 5])
              (mkArray [2; 2]%nat
                 [Ieee.Fin 0; Ieee.Fin 1; Ieee.Fin 1; Ieee.Fin 0]) 2
              eq_refl eq_refl eq_refl) as (cropped & Hc & _).
  { intros [|[|[|[|i]]]] Hi; simpl in *; auto; lia. }
  exists cropped. split; [exact Hc|].
  rewrite ieee_crop_same_shape in Hc by reflexivity.
  injection Hc as <-.
  unfold Ieee.make_threshold_binary_mask. cbn. decide_reals. reflexivity.
Defined.
